(** * NanoLog: the staging buffer, the buffer registry and the decoder tool

    A shallow embedding of [runtime/NanoLog.h] (class [NanoLog], its nested
    classes [StagingBuffer] and [StagingBufferDestroyer]) and of
    [runtime/LogDecompressor.cc] ([printLogMetadataContainingSubstring] and
    [main]).

    Conventions.
    - [uint64_t] / [size_t] and [uint32_t] values are integers of [Z]; every
      arithmetic operation of the source on them is followed by its
      reduction modulo [2^64] resp. [2^32].
    - A [char*] into [storage] is the address it holds, a [Z].  Pointer
      arithmetic is the addition of [Z]: the C++ abstract machine defines it
      only inside the array (and one past its end), where it cannot wrap.
    - [assert] is the one of [<assert.h>] without [NDEBUG]: a failed
      assertion aborts the call, which is reported as a result. *)

From Stdlib Require Import ZArith List Lia Bool String Ascii DecimalString.
From stdpp Require Import base list sorting strings.

Local Open Scope Z_scope.

(** ** Machine integers and configuration *)

Definition wrap64 (x : Z) : Z := x mod 2 ^ 64.
Definition wrap32 (x : Z) : Z := x mod 2 ^ 32.

Definition is_uint64 (x : Z) : Prop := 0 <= x < 2 ^ 64.

(** [namespace NanoLogConfig] (Config.h):  [STAGING_BUFFER_SIZE] is the
    capacity in bytes of the [storage] array of a staging buffer. *)
Class NanoLogConfig : Type := { STAGING_BUFFER_SIZE : Z }.

(** ** [class StagingBuffer]: the data members

    [cacheLineSpacer] holds no information and is left out.  [storage] is the
    address of the first byte of the backing array [char storage[...]]; the
    array is a member, so this address is fixed for the life of the object. *)

Record StagingBuffer : Type := mkStagingBuffer {
  producerPos : Z;
  endOfRecordedSpace : Z;
  minFreeSpace : Z;
  cyclesProducerBlocked : Z;
  consumerPos : Z;
  shouldDeallocate : bool;
  id : Z;
  storage : Z
}.

(** The members the inline methods assign. *)
Inductive Field : Type := FproducerPos | FminFreeSpace | FconsumerPos.

Definition load (f : Field) (sb : StagingBuffer) : Z :=
  match f with
  | FproducerPos => producerPos sb
  | FminFreeSpace => minFreeSpace sb
  | FconsumerPos => consumerPos sb
  end.

Definition store (f : Field) (v : Z) (sb : StagingBuffer) : StagingBuffer :=
  match f with
  | FproducerPos =>
      mkStagingBuffer v (endOfRecordedSpace sb) (minFreeSpace sb)
        (cyclesProducerBlocked sb) (consumerPos sb) (shouldDeallocate sb)
        (id sb) (storage sb)
  | FminFreeSpace =>
      mkStagingBuffer (producerPos sb) (endOfRecordedSpace sb) v
        (cyclesProducerBlocked sb) (consumerPos sb) (shouldDeallocate sb)
        (id sb) (storage sb)
  | FconsumerPos =>
      mkStagingBuffer (producerPos sb) (endOfRecordedSpace sb) (minFreeSpace sb)
        (cyclesProducerBlocked sb) v (shouldDeallocate sb)
        (id sb) (storage sb)
  end.

(** ** Effects of a method body

    A method runs on the buffer it is called on and leaves, in program
    order, the fences it issues and the stores it performs. *)

Inductive Event : Type :=
| Esfence
| Elfence
| Estore (f : Field) (v : Z).

(** Which [assert] of [finishReservation] failed. *)
Inductive AssertFailure : Type :=
| Assert_nbytes_lt_minFreeSpace
| Assert_producerPos_in_storage.

Definition M (A : Type) : Type :=
  StagingBuffer -> list Event -> AssertFailure + (A * StagingBuffer * list Event).

#[global] Instance M_ret : MRet M := fun A (a : A) sb tr => inr (a, sb, tr).

#[global] Instance M_bind : MBind M := fun A B (k : A -> M B) (m : M A) sb tr =>
  match m sb tr with
  | inl e => inl e
  | inr (a, sb', tr') => k a sb' tr'
  end.

Definition read (f : Field) : M Z := fun sb tr => inr (load f sb, sb, tr).
Definition this : M StagingBuffer := fun sb tr => inr (sb, sb, tr).
Definition write (f : Field) (v : Z) : M unit :=
  fun sb tr => inr (tt, store f v sb, tr ++ [Estore f v]).
Definition sfence : M unit := fun sb tr => inr (tt, sb, tr ++ [Esfence]).
Definition lfence : M unit := fun sb tr => inr (tt, sb, tr ++ [Elfence]).
Definition assert (b : bool) (e : AssertFailure) : M unit :=
  fun sb tr => if b then inr (tt, sb, tr) else inl e.

(** ** The inline methods of [StagingBuffer] *)

(** What [reserveProducerSpace] does: it returns a pointer at once, or it
    ends in the call [reserveSpaceInternal(nbytes)] (defined in NanoLog.cc;
    the second parameter takes its default, [blocking = true]). *)
Inductive Reserve : Type :=
| Return (ptr : Z)
| Call_reserveSpaceInternal (nbytes : Z) (blocking : bool).

Definition reserveProducerSpace (sb : StagingBuffer) (nbytes : Z) : Reserve :=
  if nbytes <? minFreeSpace sb
  then Return (producerPos sb)
  else Call_reserveSpaceInternal nbytes true.

(** [consumerPos += nbytes] adds to a pointer.  The caller passes at most
    what [peek()] returned, which keeps the sum inside [storage]; outside
    of it the sum of the machine is the one modulo [2^64], and what is
    proved of the new [consumerPos] takes a bound on [nbytes]. *)
Definition consume (nbytes : Z) : M unit :=
  lfence ;;
  c ← read FconsumerPos ;
  write FconsumerPos (c + nbytes).

Definition checkCanDelete (sb : StagingBuffer) : bool :=
  shouldDeallocate sb && (consumerPos sb =? producerPos sb).

Definition getId (sb : StagingBuffer) : Z := id sb.

Section StagingBufferMethods.
Context `{NanoLogConfig}.

Definition finishReservation (nbytes : Z) : M unit :=
  m ← read FminFreeSpace ;
  assert (nbytes <? m) Assert_nbytes_lt_minFreeSpace ;;
  sb ← this ;
  assert (producerPos sb + nbytes <? storage sb + STAGING_BUFFER_SIZE)
         Assert_producerPos_in_storage ;;
  sfence ;;
  m ← read FminFreeSpace ;
  write FminFreeSpace (wrap64 (m - nbytes)) ;;
  p ← read FproducerPos ;
  write FproducerPos (p + nbytes).

(** The constructor [StagingBuffer(bufferId)] for an object whose [storage]
    array starts at [storage_addr].  Members are initialised in the order of
    their declaration; no initialiser reads another member. *)
Definition StagingBuffer_new (storage_addr bufferId : Z) : StagingBuffer :=
  {| producerPos := storage_addr;
     endOfRecordedSpace := storage_addr + STAGING_BUFFER_SIZE;
     minFreeSpace := STAGING_BUFFER_SIZE;
     cyclesProducerBlocked := 0;
     consumerPos := storage_addr;
     shouldDeallocate := false;
     id := bufferId;
     storage := storage_addr |}.

End StagingBufferMethods.

(** ** [class NanoLog]: threads, the registry and the sentinel

    Objects created by [new StagingBuffer] live in [heap], in the order of
    their creation; a [StagingBuffer*] is [None] for [nullptr] and [Some a]
    for the object at index [a].  Two pointers with the same index are the
    same object: what one thread stores through its pointer, every holder of
    that pointer sees.

    A schedule interleaves the statements of the functions that the header
    defines.  What NanoLog.cc defines (the slow path of a reservation,
    [peek], the loop of the compression thread, which deletes buffers) is
    not part of a schedule. *)

Definition ptr : Type := option nat.

(** Where a thread stands.  The constructors [Ensure_*] are the statements of
    [ensureStagingBufferAllocated] a thread is about to execute; [bufferId]
    is the local variable of that function. *)
Inductive PC : Type :=
| Running
| Ensure_lock
| Ensure_increment
| Ensure_unlock (bufferId : Z)
| Ensure_new (bufferId : Z)
| Ensure_relock
| Ensure_push
| Ensure_release
| Terminated.

(** The thread-local [stagingBuffer] pointer and the position of the thread. *)
Record Thread : Type := mkThread {
  stagingBuffer : ptr;
  pc : PC
}.

(** The members of the singleton that the header's inline code uses;
    [bufferMutex] is its owner, if any. *)
Record NanoLog : Type := mkNanoLog {
  threadBuffers : list ptr;
  nextBufferId : Z;
  bufferMutex : option nat
}.

Record World : Type := mkWorld {
  nanoLogSingleton : NanoLog;
  heap : list StagingBuffer;
  threads : list Thread
}.

(** [uint32_t nextBufferId = 1], an empty registry, no thread yet. *)
Definition init : World :=
  {| nanoLogSingleton :=
       {| threadBuffers := []; nextBufferId := 1; bufferMutex := None |};
     heap := [];
     threads := [] |}.

Definition with_thread (t : nat) (th : Thread) (w : World) : World :=
  mkWorld (nanoLogSingleton w) (heap w) (<[t := th]> (threads w)).

Definition with_singleton (n : NanoLog) (w : World) : World :=
  mkWorld n (heap w) (threads w).

Definition with_heap (h : list StagingBuffer) (w : World) : World :=
  mkWorld (nanoLogSingleton w) h (threads w).

Definition with_mutex (o : option nat) (n : NanoLog) : NanoLog :=
  mkNanoLog (threadBuffers n) (nextBufferId n) o.

Definition mark_shouldDeallocate (sb : StagingBuffer) : StagingBuffer :=
  mkStagingBuffer (producerPos sb) (endOfRecordedSpace sb) (minFreeSpace sb)
    (cyclesProducerBlocked sb) (consumerPos sb) true (id sb) (storage sb).

(** [~StagingBufferDestroyer()], on the thread-local pointer of the dying
    thread and the heap. *)
Definition StagingBufferDestroyer_dtor
    (sbp : ptr) (h : list StagingBuffer) : ptr * list StagingBuffer :=
  match sbp with
  | Some a => (None, alter mark_shouldDeallocate a h)
  | None => (None, h)
  end.

(** What the scheduler picks next.  [L_ensure t addr]: thread [t] executes its
    next statement of [ensureStagingBufferAllocated] ([addr] is where the
    [storage] of the object lies if that statement is the [new]).
    [L_finishReservation t n]: thread [t] calls [__internal_finishAlloc(n)].
    [L_consume a n]: the compression thread calls [consume(n)] on object [a].
    [L_exit t]: thread [t] ends; its [thread_local] sentinel is destroyed and
    the thread executes nothing after that.  The two statements of the
    destructor are one step: the second one assigns the thread-local
    pointer, which no other thread reads. *)
Inductive Label : Type :=
| L_spawn
| L_ensure (t : nat) (addr : Z)
| L_finishReservation (t : nat) (nbytes : Z)
| L_consume (a : nat) (nbytes : Z)
| L_exit (t : nat).

Section Scheduling.
Context `{NanoLogConfig}.

(** The statement of [ensureStagingBufferAllocated] that thread [t], whose
    thread-local state is [th], executes next.  [None]: the thread cannot
    move (it waits for the mutex, or it has ended). *)
Definition ensure_statement
    (t : nat) (addr : Z) (th : Thread) (w : World) : option World :=
  let n := nanoLogSingleton w in
  match pc th with
  | Running =>
      match stagingBuffer th with
      | None => Some (with_thread t (mkThread None Ensure_lock) w)
      | Some _ => Some w
      end
  | Ensure_lock =>
      match bufferMutex n with
      | None =>
          Some (with_thread t (mkThread (stagingBuffer th) Ensure_increment)
                  (with_singleton (with_mutex (Some t) n) w))
      | Some _ => None
      end
  | Ensure_increment =>
      let bufferId := nextBufferId n in
      Some (with_thread t (mkThread (stagingBuffer th) (Ensure_unlock bufferId))
              (with_singleton
                 (mkNanoLog (threadBuffers n) (wrap32 (nextBufferId n + 1))
                            (bufferMutex n)) w))
  | Ensure_unlock bufferId =>
      Some (with_thread t (mkThread (stagingBuffer th) (Ensure_new bufferId))
              (with_singleton (with_mutex None n) w))
  | Ensure_new bufferId =>
      Some (with_thread t (mkThread (Some (length (heap w))) Ensure_relock)
              (with_heap (heap w ++ [StagingBuffer_new addr bufferId]) w))
  | Ensure_relock =>
      match bufferMutex n with
      | None =>
          Some (with_thread t (mkThread (stagingBuffer th) Ensure_push)
                  (with_singleton (with_mutex (Some t) n) w))
      | Some _ => None
      end
  | Ensure_push =>
      Some (with_thread t (mkThread (stagingBuffer th) Ensure_release)
              (with_singleton
                 (mkNanoLog (threadBuffers n ++ [stagingBuffer th])
                            (nextBufferId n) (bufferMutex n)) w))
  | Ensure_release =>
      Some (with_thread t (mkThread (stagingBuffer th) Running)
              (with_singleton (with_mutex None n) w))
  | Terminated => None
  end.

Definition ensureStagingBufferAllocated
    (t : nat) (addr : Z) (w : World) : option World :=
  th ← threads w !! t ;
  ensure_statement t addr th w.

(** A method of the buffer at [a], run to its end.  [None]: no such object,
    or an assertion failed and the process was aborted. *)
Definition call_method (a : nat) (m : M unit) (w : World) : option World :=
  sb ← heap w !! a ;
  match m sb [] with
  | inr (_, sb', _) => Some (with_heap (<[a := sb']> (heap w)) w)
  | inl _ => None
  end.

Definition step (l : Label) (w : World) : option World :=
  match l with
  | L_spawn =>
      Some (mkWorld (nanoLogSingleton w) (heap w)
                    (threads w ++ [mkThread None Running]))
  | L_ensure t addr => ensureStagingBufferAllocated t addr w
  | L_finishReservation t nbytes =>
      th ← threads w !! t ;
      match pc th, stagingBuffer th with
      | Running, Some a => call_method a (finishReservation nbytes) w
      | _, _ => None
      end
  | L_consume a nbytes => call_method a (consume nbytes) w
  | L_exit t =>
      th ← threads w !! t ;
      match pc th with
      | Running =>
          let '(p, h) := StagingBufferDestroyer_dtor (stagingBuffer th) (heap w) in
          Some (with_thread t (mkThread p Terminated) (with_heap h w))
      | _ => None
      end
  end.

(** A schedule, first choice first. *)
Fixpoint run (ls : list Label) (w : World) : option World :=
  match ls with
  | [] => Some w
  | l :: ls' => w' ← step l w ; run ls' w'
  end.

Definition reachable (w : World) : Prop := exists ls, run ls init = Some w.

(** The buffer on which [step l w] executes
    [stagingBuffer->shouldDeallocate = true], if it does. *)
Definition marked (l : Label) (w : World) : option nat :=
  match l with
  | L_exit t =>
      th ← threads w !! t ;
      match pc th with
      | Running => stagingBuffer th
      | _ => None
      end
  | _ => None
  end.

(** The buffers marked along a schedule, in the order of the marking. *)
Fixpoint marks (ls : list Label) (w : World) : list nat :=
  match ls with
  | [] => []
  | l :: ls' =>
      match step l w with
      | Some w' => option_list (marked l w) ++ marks ls' w'
      | None => []
      end
  end.

(** Ids taken from [nextBufferId] whose buffer is not constructed yet. *)
Definition inflight_of (th : Thread) : list Z :=
  match pc th with
  | Ensure_unlock bufferId | Ensure_new bufferId => [bufferId]
  | _ => []
  end.

Definition inflight (ths : list Thread) : list Z := ths ≫= inflight_of.

(** All ids handed out so far. *)
Definition issued (w : World) : list Z :=
  (id <$> heap w) ++ inflight (threads w).

End Scheduling.

(** ** LogDecompressor.cc *)

(** *** C strings and the library functions the file calls

    A [const char*] argument is read up to its first NUL; [c_str] is that
    view of a string (for [std::string::c_str()] and for [%s]). *)

Definition CRLF : string := String "013" (String "010" EmptyString).
Definition TAB : string := String "009" EmptyString.

Fixpoint c_str (s : string) : string :=
  match s with
  | EmptyString => EmptyString
  | String c s' => if Ascii.eqb c zero then EmptyString else String c (c_str s')
  end.

Fixpoint find_from (needle haystack : string) : option string :=
  if String.prefix needle haystack then Some haystack
  else match haystack with
       | EmptyString => None
       | String _ rest => find_from needle rest
       end.

(** [strstr(haystack, needle)] of [<string.h>]: the first occurrence of the
    C string [needle] in the C string [haystack], from there to the end, or
    [None] for the null pointer. *)
Definition strstr (haystack needle : string) : option string :=
  find_from (c_str needle) (c_str haystack).

Fixpoint spaces (n : nat) : string :=
  match n with
  | O => EmptyString
  | S n' => String " " (spaces n')
  end.

(** The conversions [%Ns] / [%-Ns] and [%Nlu] / [%-Nu] of [printf]. *)
Definition pad_left (width : nat) (s : string) : string :=
  spaces (width - String.length s) +:+ s.
Definition pad_right (width : nat) (s : string) : string :=
  s +:+ spaces (width - String.length s).
Definition decimal (n : N) : string := NilZero.string_of_uint (N.to_uint n).

Definition isspace (c : ascii) : bool :=
  let n := N_of_ascii c in
  ((n =? 32) || ((9 <=? n) && (n <=? 13)))%N.

Definition digit_of (c : ascii) : option Z :=
  let n := Z.of_N (N_of_ascii c) in
  if (48 <=? n) && (n <=? 57) then Some (n - 48) else None.

Fixpoint skip_space (s : string) : string :=
  match s with
  | String c s' => if isspace c then skip_space s' else s
  | EmptyString => EmptyString
  end.

(** The longest run of decimal digits at the head of [s]; [acc] is the value
    of the digits read so far, [None] before the first one. *)
Fixpoint read_digits (s : string) (acc : option Z) : option Z :=
  match s with
  | String c s' =>
      match digit_of c with
      | Some d => read_digits s' (Some (10 * default 0 acc + d))
      | None => acc
      end
  | EmptyString => acc
  end.

Definition INT_MIN : Z := - 2 ^ 31.
Definition INT_MAX : Z := 2 ^ 31 - 1.

Inductive stoi_result : Type :=
| stoi_value (v : Z)
| invalid_argument
| out_of_range.

(** [std::stoi(str)] of [<string>] ([strtol] in base 10, then the check
    against the range of [int]): leading white space, an optional sign, the
    longest run of digits; characters after it are ignored. *)
Definition stoi (str : string) : stoi_result :=
  let s1 := skip_space str in
  let '(negative, s2) :=
    match s1 with
    | String "-" r => (true, r)
    | String "+" r => (false, r)
    | _ => (false, s1)
    end in
  match read_digits s2 None with
  | None => invalid_argument
  | Some v =>
      let v := if negative : bool then - v else v in
      if (INT_MIN <=? v) && (v <=? INT_MAX) then stoi_value v else out_of_range
  end.

(** *** The generated metadata table *)

(** Modelled from the spec: the struct [GeneratedFunctions::LogMetadata] of
    GeneratedCode.h, a file the preprocessor generates; of its members the
    source reads [fileName], [lineNumber] (printed with [%u]) and
    [fmtString]. *)
Record LogMetadata : Type := mkLogMetadata {
  fileName : string;
  lineNumber : N;
  fmtString : string
}.

Section Metadata.

(** [GeneratedFunctions::numLogIds] and [GeneratedFunctions::logId2Metadata]
    (GeneratedCode.h); the array is read at the indices below [numLogIds]. *)
Variable numLogIds : nat.
Variable logId2Metadata : nat -> LogMetadata.

(** The first loop: the ids pushed to [matchingLogIds], in push order, when
    the loop variable runs over [ids]. *)
Fixpoint matching (searchString : string) (ids : list nat) : list nat :=
  match ids with
  | [] => []
  | i :: ids' =>
      let fmtMsg := fmtString (logId2Metadata i) in
      match strstr fmtMsg searchString with
      | Some _ => i :: matching searchString ids'
      | None => matching searchString ids'
      end
  end.

Definition header_row : string :=
  pad_left 4 "id" +:+ " | " +:+ pad_right 20 "filename" +:+ " | "
  +:+ pad_right 4 "line" +:+ " | " +:+ "format string" +:+ CRLF.

Definition metadata_row (i : nat) : string :=
  let lm := logId2Metadata i in
  pad_left 4 (decimal (N.of_nat i)) +:+ " | "
  +:+ pad_right 20 (c_str (fileName lm)) +:+ " | "
  +:+ pad_right 4 (decimal (lineNumber lm)) +:+ " | "
  +:+ c_str (fmtString lm) +:+ CRLF.

(** What the function writes to [stdout], one string for each [printf]. *)
Definition printLogMetadataContainingSubstring (searchString : string)
  : list string :=
  let matchingLogIds := matching searchString (seq 0 numLogIds) in
  header_row :: map metadata_row matchingLogIds.

End Metadata.

(** *** The decoder and [main] *)

(** The part of [class Log::Decoder] (Log.h and Log.cc are not under src/)
    that [main] uses: [open], which gives the opened file or nothing where
    the source has [false], and [decompressUnordered], with what it writes
    to [stdout]. *)
Class Decoder (File : Type) : Type := {
  Decoder_open : string -> option File;
  decompressUnordered : File -> Z -> list string
}.

(** Modelled from the spec: a compressed log file, seen as the renderings of
    its records (what the generated decompressor of each record writes), in
    file order.  The file format and the generated decompressors are not
    under src/. *)
Definition LogFile : Type := list string.

(** Modelled from the spec: [Log::Decoder], whose [open] returns false if the
    file cannot be opened ([fs] tells which paths can be opened and what they
    hold) and whose [decompressUnordered] writes the records in file order
    and stops after [maxMessages] records, or, when [maxMessages < 0], runs
    to the end of the file. *)
Definition spec_Decoder (fs : string -> option LogFile) : Decoder LogFile :=
  {| Decoder_open := fs;
     decompressUnordered f maxMessages :=
       if maxMessages <? 0 then f else take (Z.to_nat maxMessages) f |}.

(** A run of [main]: what it wrote to [stdout] and the value it returned or
    passed to [exit]. *)
Definition Outcome : Type := (list string * Z)%type.

Definition usage (argv0 : string) : list string :=
  [ "Decompresses log files produced by the NanoLog System" +:+ CRLF
    +:+ "into a human readable format." +:+ CRLF +:+ CRLF;
    TAB +:+ "Usage: " +:+ argv0 +:+ " <logFile> [# messages to print]" +:+ CRLF ].

(** Lines 73 to 95 of [main]: the value of [msgsToPrint] handed to the
    decoder, or the outcome of the [exit] taken before. [rest] is [argv]
    from index 2 on. *)
Definition msgsToPrint_of (rest : list string) : Outcome + Z :=
  let parsed : Outcome + Z :=
    match rest with
    | [] => inr 0
    | argv2 :: _ =>
        match stoi argv2 with
        | invalid_argument =>
            inl (["Invalid # of message to print, please enter a number: "
                  +:+ c_str argv2 +:+ CRLF], -1)
        | out_of_range =>
            inl (["# of messages to print is too large: " +:+ c_str argv2 +:+ CRLF;
                  "If you intend to print all message, "
                  +:+ "exclude the # messages to print parameter." +:+ CRLF], -1)
        | stoi_value msgsToPrint =>
            if msgsToPrint <? 0
            then inl (["# of messages to print must be positive: "
                       +:+ c_str argv2 +:+ CRLF], -1)
            else inr msgsToPrint
        end
    end in
  match parsed with
  | inl o => inl o
  | inr msgsToPrint => inr (if msgsToPrint =? 0 then -1 else msgsToPrint)
  end.

(** [main(argc, argv)] with [argc = length argv]; for an empty [argv] the
    [%s] of [argv[0]] is written as glibc writes a null pointer. *)
Definition main `{Decoder File} (argv : list string) : Outcome :=
  match argv with
  | [] => (usage "(null)", 1)
  | [argv0] => (usage (c_str argv0), 1)
  | argv0 :: argv1 :: rest =>
      match msgsToPrint_of rest with
      | inl o => o
      | inr msgsToPrint =>
          match Decoder_open (c_str argv1) with
          | None => (["Unable to open file " +:+ c_str argv1 +:+ CRLF], 0)
          | Some f => (decompressUnordered f msgsToPrint, 0)
          end
      end
  end.

(** * Vocabulary of the properties *)

(** ** Substrings *)

(** What "the string [hay] contains [needle] as a substring" means. *)
Definition is_substring (needle hay : string) : Prop :=
  exists before after, hay = before +:+ needle +:+ after.

(** ** Rules of the scheduler *)

Definition is_method (l : Label) : bool :=
  match l with
  | L_finishReservation _ _ | L_consume _ _ => true
  | _ => false
  end.

(** The statements of [ensureStagingBufferAllocated] other than the [new]:
    thread [t] goes from [(p, c)] to [(p', c')], the singleton from [n] to
    [n']. *)
Inductive ensure_move (t : nat) (n : NanoLog) (p : ptr) :
    PC -> ptr -> PC -> NanoLog -> Prop :=
| E_enter :
    p = None ->
    ensure_move t n p Running None Ensure_lock n
| E_lock :
    bufferMutex n = None ->
    ensure_move t n p Ensure_lock p Ensure_increment (with_mutex (Some t) n)
| E_increment :
    ensure_move t n p Ensure_increment p (Ensure_unlock (nextBufferId n))
      (mkNanoLog (threadBuffers n) (wrap32 (nextBufferId n + 1)) (bufferMutex n))
| E_unlock bufferId :
    ensure_move t n p (Ensure_unlock bufferId) p (Ensure_new bufferId)
      (with_mutex None n)
| E_relock :
    bufferMutex n = None ->
    ensure_move t n p Ensure_relock p Ensure_push (with_mutex (Some t) n)
| E_push :
    ensure_move t n p Ensure_push p Ensure_release
      (mkNanoLog (threadBuffers n ++ [p]) (nextBufferId n) (bufferMutex n))
| E_release :
    ensure_move t n p Ensure_release p Running (with_mutex None n).

Section SchedulingRules.
Context `{NanoLogConfig}.

(** The successors of a world, one rule for each kind of statement. *)
Inductive step_rel : Label -> World -> World -> Prop :=
| R_spawn w :
    step_rel L_spawn w
      (mkWorld (nanoLogSingleton w) (heap w)
               (threads w ++ [mkThread None Running]))
| R_skip t addr w a :
    threads w !! t = Some (mkThread (Some a) Running) ->
    step_rel (L_ensure t addr) w w
| R_move t addr w p c p' c' n' :
    threads w !! t = Some (mkThread p c) ->
    ensure_move t (nanoLogSingleton w) p c p' c' n' ->
    step_rel (L_ensure t addr) w
      (with_thread t (mkThread p' c') (with_singleton n' w))
| R_new t addr w p bufferId :
    threads w !! t = Some (mkThread p (Ensure_new bufferId)) ->
    step_rel (L_ensure t addr) w
      (with_thread t (mkThread (Some (length (heap w))) Ensure_relock)
         (with_heap (heap w ++ [StagingBuffer_new addr bufferId]) w))
| R_method l a sb sb' w :
    is_method l = true ->
    heap w !! a = Some sb ->
    id sb' = id sb ->
    shouldDeallocate sb' = shouldDeallocate sb ->
    step_rel l w (with_heap (<[a := sb']> (heap w)) w)
| R_exit_null t w :
    threads w !! t = Some (mkThread None Running) ->
    step_rel (L_exit t) w
      (with_thread t (mkThread None Terminated) (with_heap (heap w) w))
| R_exit_mark t w a :
    threads w !! t = Some (mkThread (Some a) Running) ->
    step_rel (L_exit t) w
      (with_thread t (mkThread None Terminated)
         (with_heap (alter mark_shouldDeallocate a (heap w)) w)).

End SchedulingRules.

(** ** Invariants of the reachable worlds *)

(** The id handed out after [k] others. *)
Definition nth_id (k : nat) : Z := wrap32 (1 + Z.of_nat k).

Definition ids_inv (w : World) : Prop :=
  nextBufferId (nanoLogSingleton w) = nth_id (length (issued w))
  /\ issued w ≡ₚ nth_id <$> seq 0 (length (issued w)).

(** The statements between a [lock] and the next [unlock]. *)
Definition holds_mutex (c : PC) : bool :=
  match c with
  | Ensure_increment | Ensure_unlock _ | Ensure_push | Ensure_release => true
  | _ => false
  end.

(** The owner of [bufferMutex] is the one thread between a [lock] and the
    next [unlock]. *)
Definition mutex_inv (w : World) : Prop :=
  forall t : nat,
    bufferMutex (nanoLogSingleton w) = Some t
    <-> exists th, threads w !! t = Some th /\ holds_mutex (pc th) = true.

(** A thread-local pointer that is not null designates a live buffer whose
    [shouldDeallocate] is still false, and no two threads share a buffer. *)
Definition ptr_inv (w : World) : Prop :=
  (forall t th a,
      threads w !! t = Some th -> stagingBuffer th = Some a ->
      exists sb, heap w !! a = Some sb /\ shouldDeallocate sb = false)
  /\ (forall t t' th th' a,
      threads w !! t = Some th -> threads w !! t' = Some th' ->
      stagingBuffer th = Some a -> stagingBuffer th' = Some a -> t = t').

(** ** Runs of the producer and of the consumer on one buffer *)

(** The buffer that a call leaves, if the call returns. *)
Definition final {A : Type}
    (r : AssertFailure + (A * StagingBuffer * list Event)) : option StagingBuffer :=
  match r with
  | inr (_, sb, _) => Some sb
  | inl _ => None
  end.

Fixpoint total (ns : list Z) : Z :=
  match ns with
  | [] => 0
  | n :: ns' => n + total ns'
  end.

Section Commits.
Context `{NanoLogConfig}.

(** [finishReservation(n)] for each [n] of [ns], in this order. *)
Fixpoint commits (ns : list Z) : M unit :=
  match ns with
  | [] => mret tt
  | n :: ns' => finishReservation n ;; commits ns'
  end.

End Commits.

(** ** The registry and calls that run alone *)

(** Where the pointer of a thread stands with respect to the registry [tb],
    by the statement the thread is at: not yet set, set and not yet pushed,
    or pushed. *)
Definition registered (tb : list ptr) (th : Thread) : Prop :=
  match pc th with
  | Running => forall a, stagingBuffer th = Some a -> Some a ∈ tb
  | Ensure_lock | Ensure_increment | Ensure_unlock _ | Ensure_new _
  | Terminated => stagingBuffer th = None
  | Ensure_relock | Ensure_push =>
      exists a, stagingBuffer th = Some a /\ Some a ∉ tb
  | Ensure_release => exists a, stagingBuffer th = Some a /\ Some a ∈ tb
  end.

Definition registry_inv (w : World) : Prop :=
  let tb := threadBuffers (nanoLogSingleton w) in
  NoDup tb
  /\ (forall p, p ∈ tb -> exists a, p = Some a /\ (a < length (heap w))%nat)
  /\ (forall t th, threads w !! t = Some th -> registered tb th)
  /\ (forall a, (a < length (heap w))%nat ->
        Some a ∈ tb
        \/ exists t th, threads w !! t = Some th
                        /\ stagingBuffer th = Some a
                        /\ (pc th = Ensure_relock \/ pc th = Ensure_push)).

(** The members of a buffer that no inline method assigns. *)
Definition same_identity (sb sb' : StagingBuffer) : Prop :=
  id sb' = id sb
  /\ storage sb' = storage sb
  /\ endOfRecordedSpace sb' = endOfRecordedSpace sb
  /\ cyclesProducerBlocked sb' = cyclesProducerBlocked sb.

Section Alone.
Context `{NanoLogConfig}.

(** [ensureStagingBufferAllocated()] by thread [t], from its first statement
    to its last, while no other thread takes a step. *)
Definition ensure_alone (t : nat) (addr : Z) : list Label :=
  replicate 8 (L_ensure t addr).

(** [__internal_reserveAlloc(nbytes)] called by thread [t], while no other
    thread takes a step; [addr] is where the [storage] of a buffer lies if
    the call allocates one.  It gives what [reserveProducerSpace] gives and
    the world that the call leaves. *)
Definition __internal_reserveAlloc
    (t : nat) (addr nbytes : Z) (w : World) : option (Reserve * World) :=
  th ← threads w !! t ;
  match pc th with
  | Running =>
      w' ← match stagingBuffer th with
           | None => run (ensure_alone t addr) w
           | Some _ => Some w
           end ;
      th' ← threads w' !! t ;
      a ← stagingBuffer th' ;
      sb ← heap w' !! a ;
      Some (reserveProducerSpace sb nbytes, w')
  | _ => None
  end.

End Alone.

(** ** Schedules and inputs *)

Section Churn.
Context `{NanoLogConfig}.

(** A thread starts, runs [ensureStagingBufferAllocated] to its end, where
    its buffer gets the [storage] at address 4096, and ends. *)
Definition allocate (t : nat) : list Label :=
  (L_spawn :: replicate 8 (L_ensure t 4096)) ++ [L_exit t].

(** Threads [0], ..., [n - 1] do so, one after the other. *)
Definition churn (n : nat) : list Label := seq 0 n ≫= allocate.

(** The world after [churn n]. *)
Definition churned (n : nat) : World :=
  {| nanoLogSingleton :=
       {| threadBuffers := Some <$> seq 0 n;
          nextBufferId := nth_id n;
          bufferMutex := None |};
     heap := (fun k => mark_shouldDeallocate (StagingBuffer_new 4096 (nth_id k)))
             <$> seq 0 n;
     threads := replicate n (mkThread None Terminated) |}.

End Churn.

(** The reference configuration: a capacity of 1 MiB. *)
Definition reference_config : NanoLogConfig :=
  {| STAGING_BUFFER_SIZE := 1048576 |}.

(** A fresh buffer whose [storage] lies at address 4096. *)
Definition fresh_buffer : StagingBuffer :=
  StagingBuffer_new (H := reference_config) 4096 1.

(** A log file of three records, readable under one name only. *)
Definition three_records : Decoder LogFile :=
  spec_Decoder (fun path =>
    if String.eqb path "app.log" then Some ["first"; "second"; "third"]
    else None).

(** The search string [a NUL b] against the one format string [a]. *)
Definition one_entry (i : nat) : LogMetadata := mkLogMetadata "main.cc" 7 "a".
Definition a_NUL_b : string := String "a" (String zero (String "b" EmptyString)).

(** Two threads that allocate their buffers at the same time: thread 0 takes
    its id first, thread 1 constructs its buffer first. *)
Definition interleaved : list Label :=
  [ L_spawn; L_spawn;
    L_ensure 0 0; L_ensure 1 0;
    L_ensure 0 0; L_ensure 0 0; L_ensure 0 0;
    L_ensure 1 0; L_ensure 1 0; L_ensure 1 0;
    L_ensure 1 4194304;
    L_ensure 0 8388608 ].

Definition interleaved_world : World := Eval vm_compute in
  default init (run (H := reference_config) interleaved init).

(** After that, thread 1 registers its buffer and returns, and thread 0
    takes the mutex to register its own. *)
Definition registering : list Label :=
  interleaved ++ [L_ensure 1 0; L_ensure 1 0; L_ensure 1 0; L_ensure 0 0].

Definition registering_world : World := Eval vm_compute in
  default init (run (H := reference_config) registering init).

(** A thread allocates its buffer, commits 64 bytes, which the compression
    thread consumes, and ends. *)
Definition one_thread : list Label :=
  L_spawn :: replicate 5 (L_ensure 0 0) ++ L_ensure 0 4096
  :: replicate 3 (L_ensure 0 0)
  ++ [L_finishReservation 0 64; L_consume 0 64; L_exit 0].

Definition one_thread_world : World := Eval vm_compute in
  default init (run (H := reference_config) one_thread init).

(** A thread that has started and not logged yet. *)
Definition spawned_world : World := Eval vm_compute in
  default init (run (H := reference_config) [L_spawn] init).

(** A thread with a buffer, 64 bytes of which are committed and not consumed. *)
Definition committed : list Label :=
  L_spawn :: ensure_alone 0 4096 ++ [L_finishReservation 0 64].

Definition committed_world : World := Eval vm_compute in
  default init (run (H := reference_config) committed init).

Definition committed_buffer : StagingBuffer := Eval vm_compute in
  default fresh_buffer (heap committed_world !! 0%nat).

(** The thread commits 36 bytes more, the compression thread consumes the
    hundred bytes, the thread ends. *)
Definition rest_of_life : list Label :=
  [L_finishReservation 0 36; L_consume 0 100; L_exit 0].

Definition ended_world : World := Eval vm_compute in
  default init (run (H := reference_config) rest_of_life committed_world).

(** Thread 1 waits for the mutex that thread 0 owns. *)
Definition waiting : list Label :=
  [L_spawn; L_spawn; L_ensure 0 0; L_ensure 1 0; L_ensure 0 0].

Definition waiting_world : World := Eval vm_compute in
  default init (run (H := reference_config) waiting init).

(** Two call sites, in one file. *)
Definition two_entries (i : nat) : LogMetadata :=
  match i with
  | O => mkLogMetadata "main.cc" 12 "Opened %s"
  | _ => mkLogMetadata "main.cc" 47 "Closed %s after %d ms"
  end.

(** * Properties *)

(** ** The inline methods of [StagingBuffer] *)

Section StagingBufferProperties.
Context `{NanoLogConfig}.

(** The body of [finishReservation], one case per outcome. *)
Lemma finishReservation_unfold (nbytes : Z) (sb : StagingBuffer) (tr : list Event) :
  finishReservation nbytes sb tr =
  if nbytes <? minFreeSpace sb then
    if producerPos sb + nbytes <? storage sb + STAGING_BUFFER_SIZE then
      inr (tt,
           store FproducerPos (producerPos sb + nbytes)
             (store FminFreeSpace (wrap64 (minFreeSpace sb - nbytes)) sb),
           tr ++ [Esfence;
                  Estore FminFreeSpace (wrap64 (minFreeSpace sb - nbytes));
                  Estore FproducerPos (producerPos sb + nbytes)])
    else inl Assert_producerPos_in_storage
  else inl Assert_nbytes_lt_minFreeSpace.
Proof.
  unfold finishReservation, mbind, M_bind, read, this, assert, sfence, write.
  simpl.
  destruct (nbytes <? minFreeSpace sb); [| reflexivity].
  destruct (producerPos sb + nbytes <? storage sb + STAGING_BUFFER_SIZE);
    [| reflexivity].
  rewrite <- !app_assoc. reflexivity.
Qed.

Lemma consume_unfold (nbytes : Z) (sb : StagingBuffer) (tr : list Event) :
  consume nbytes sb tr =
  inr (tt, store FconsumerPos (consumerPos sb + nbytes) sb,
       tr ++ [Elfence; Estore FconsumerPos (consumerPos sb + nbytes)]).
Proof.
  unfold consume, mbind, M_bind, read, lfence, write. simpl.
  rewrite <- !app_assoc. reflexivity.
Qed.

Lemma wrap64_small (x : Z) : is_uint64 x -> wrap64 x = x.
Proof. unfold is_uint64, wrap64. intros Hx. apply Z.mod_small. exact Hx. Qed.

(** C2. [reserveProducerSpace(nbytes)] returns [producerPos] at once exactly
    when [nbytes < minFreeSpace]; otherwise, and in particular when
    [nbytes = minFreeSpace], it ends in the call of [reserveSpaceInternal]. *)
Theorem reserveProducerSpace_fast_path_iff (sb : StagingBuffer) (nbytes : Z) :
  (reserveProducerSpace sb nbytes = Return (producerPos sb)
     <-> nbytes < minFreeSpace sb)
  /\ (reserveProducerSpace sb nbytes = Call_reserveSpaceInternal nbytes true
     <-> minFreeSpace sb <= nbytes)
  /\ reserveProducerSpace sb (minFreeSpace sb)
     = Call_reserveSpaceInternal (minFreeSpace sb) true.
Proof.
  unfold reserveProducerSpace.
  rewrite Z.ltb_irrefl.
  split; [| split; [| reflexivity]];
    destruct (Z.ltb_spec nbytes (minFreeSpace sb)) as [Hlt | Hge];
    split; intros Hr; try reflexivity; try discriminate Hr; lia.
Qed.

(** C3. Under the commit precondition (the two assertions, for a [size_t]
    argument and a [uint64_t] counter) [finishReservation(nbytes)] issues the
    store fence first, then decreases [minFreeSpace] by exactly [nbytes] and
    advances [producerPos] by exactly [nbytes]; every other member keeps its
    value. *)
Theorem finishReservation_commit
    (sb : StagingBuffer) (nbytes : Z) (tr : list Event) :
  is_uint64 nbytes ->
  is_uint64 (minFreeSpace sb) ->
  nbytes < minFreeSpace sb ->
  producerPos sb + nbytes < storage sb + STAGING_BUFFER_SIZE ->
  exists sb',
    finishReservation nbytes sb tr =
      inr (tt, sb',
           tr ++ [Esfence;
                  Estore FminFreeSpace (minFreeSpace sb - nbytes);
                  Estore FproducerPos (producerPos sb + nbytes)])
    /\ producerPos sb' = producerPos sb + nbytes
    /\ minFreeSpace sb' = minFreeSpace sb - nbytes
    /\ consumerPos sb' = consumerPos sb
    /\ endOfRecordedSpace sb' = endOfRecordedSpace sb
    /\ shouldDeallocate sb' = shouldDeallocate sb
    /\ id sb' = id sb
    /\ cyclesProducerBlocked sb' = cyclesProducerBlocked sb
    /\ storage sb' = storage sb.
Proof.
  intros Hn Hm Hlt Hend.
  rewrite finishReservation_unfold.
  apply Z.ltb_lt in Hlt as Hlt'. rewrite Hlt'.
  apply Z.ltb_lt in Hend as Hend'. rewrite Hend'.
  assert (Hw : wrap64 (minFreeSpace sb - nbytes) = minFreeSpace sb - nbytes).
  { apply wrap64_small. unfold is_uint64 in *. lia. }
  rewrite Hw.
  eexists. split; [reflexivity |].
  simpl. repeat split; reflexivity.
Qed.

(** C4. [checkCanDelete()] is true if and only if [shouldDeallocate] is set
    and [consumerPos == producerPos]. *)
Theorem checkCanDelete_iff (sb : StagingBuffer) :
  checkCanDelete sb = true
  <-> shouldDeallocate sb = true /\ consumerPos sb = producerPos sb.
Proof.
  unfold checkCanDelete.
  rewrite andb_true_iff, Z.eqb_eq.
  reflexivity.
Qed.

(** C9. A freshly constructed buffer is empty and cannot be deleted:
    [producerPos] and [consumerPos] are the start of [storage],
    [minFreeSpace] is the whole capacity, [endOfRecordedSpace] is the end of
    [storage], [shouldDeallocate] is false, so [checkCanDelete()] is false. *)
Theorem StagingBuffer_new_empty (storage_addr bufferId : Z) :
  let sb := StagingBuffer_new storage_addr bufferId in
  producerPos sb = storage sb
  /\ consumerPos sb = storage sb
  /\ consumerPos sb = producerPos sb
  /\ minFreeSpace sb = STAGING_BUFFER_SIZE
  /\ endOfRecordedSpace sb = storage sb + STAGING_BUFFER_SIZE
  /\ shouldDeallocate sb = false
  /\ getId sb = bufferId
  /\ checkCanDelete sb = false.
Proof.
  unfold checkCanDelete, getId, StagingBuffer_new.
  simpl. repeat split; reflexivity.
Qed.

(** C10. When [nbytes < minFreeSpace] and [producerPos + nbytes] is strictly
    below the end of [storage], neither assertion of [finishReservation]
    fails and the new [producerPos] is strictly inside [storage]; every call
    that gets past the assertions leaves [producerPos] strictly below the
    end of [storage]; a commit of exactly [minFreeSpace] bytes fails the
    first assertion. *)
Theorem finishReservation_assertions
    (sb : StagingBuffer) (nbytes : Z) (tr : list Event) :
  0 <= nbytes ->
  storage sb <= producerPos sb ->
  nbytes < minFreeSpace sb ->
  producerPos sb + nbytes < storage sb + STAGING_BUFFER_SIZE ->
  (exists sb' tr',
      finishReservation nbytes sb tr = inr (tt, sb', tr')
      /\ storage sb' <= producerPos sb' < storage sb' + STAGING_BUFFER_SIZE)
  /\ (forall n sb1 tr1 sb2 tr2,
         finishReservation n sb1 tr1 = inr (tt, sb2, tr2) ->
         producerPos sb2 < storage sb2 + STAGING_BUFFER_SIZE)
  /\ finishReservation (minFreeSpace sb) sb tr
     = inl Assert_nbytes_lt_minFreeSpace.
Proof.
  intros Hn Hlo Hlt Hend.
  split; [| split].
  - rewrite finishReservation_unfold.
    apply Z.ltb_lt in Hlt as ->.
    apply Z.ltb_lt in Hend as Hend'. rewrite Hend'.
    eexists. eexists. split; [reflexivity |].
    simpl. lia.
  - intros n sb1 tr1 sb2 tr2.
    rewrite finishReservation_unfold.
    destruct (n <? minFreeSpace sb1); [| discriminate].
    destruct (Z.ltb_spec (producerPos sb1 + n)
                         (storage sb1 + STAGING_BUFFER_SIZE)) as [Hin | Hout];
      [| discriminate].
    intros Heq. injection Heq as <- _. simpl. exact Hin.
  - rewrite finishReservation_unfold, Z.ltb_irrefl. reflexivity.
Qed.

End StagingBufferProperties.

(** ** The metadata search *)

Lemma app_String (c : ascii) (a b : string) :
  String c a +:+ b = String c (a +:+ b).
Proof. reflexivity. Qed.

Lemma app_EmptyString (b : string) : EmptyString +:+ b = b.
Proof. reflexivity. Qed.

Lemma prefix_true_iff (a b : string) :
  String.prefix a b = true <-> exists after, b = a +:+ after.
Proof.
  revert b. induction a as [| c a IH]; intros b; simpl.
  - split; [intros _; exists b; reflexivity | destruct b; reflexivity].
  - destruct b as [| d b].
    + split; [discriminate | intros [after Hafter]; discriminate].
    + simpl. destruct (ascii_dec c d) as [-> | Hne].
      * rewrite IH. split; intros [after Hafter]; exists after.
        -- rewrite app_String, Hafter. reflexivity.
        -- rewrite app_String in Hafter. injection Hafter as Hafter.
           exact Hafter.
      * split; [discriminate |].
        intros [after Hafter]. rewrite app_String in Hafter. congruence.
Qed.

Lemma is_substring_cons (needle : string) (c : ascii) (hay : string) :
  is_substring needle (String c hay)
  <-> String.prefix needle (String c hay) = true \/ is_substring needle hay.
Proof.
  rewrite prefix_true_iff. unfold is_substring. split.
  - intros [[| d before] [after Heq]].
    + left. exists after. exact Heq.
    + right. exists before, after. rewrite app_String in Heq. congruence.
  - intros [[after Heq] | [before [after Heq]]].
    + exists EmptyString, after. exact Heq.
    + exists (String c before), after. rewrite app_String. congruence.
Qed.

Lemma is_substring_empty (needle : string) :
  is_substring needle EmptyString <-> String.prefix needle EmptyString = true.
Proof.
  rewrite prefix_true_iff. unfold is_substring. split.
  - intros [[| d before] [after Heq]];
      [| rewrite app_String in Heq; discriminate].
    exists after. exact Heq.
  - intros [after Heq]. exists EmptyString, after. exact Heq.
Qed.

Lemma find_from_is_Some (needle hay : string) :
  is_Some (find_from needle hay) <-> is_substring needle hay.
Proof.
  induction hay as [| c hay IH].
  - rewrite is_substring_empty.
    change (find_from needle EmptyString)
      with (if String.prefix needle EmptyString then Some EmptyString
            else None).
    destruct (String.prefix needle EmptyString).
    + split; [reflexivity | intros _; eexists; reflexivity].
    + split; [intros [r Hr]; discriminate | discriminate].
  - rewrite is_substring_cons.
    change (find_from needle (String c hay))
      with (if String.prefix needle (String c hay) then Some (String c hay)
            else find_from needle hay).
    destruct (String.prefix needle (String c hay)).
    + split; [intros _; left; reflexivity | intros _; eexists; reflexivity].
    + rewrite IH. split; [intros Hs; right; exact Hs |].
      intros [Hp | Hs]; [discriminate | exact Hs].
Qed.

(** [strstr] finds the needle exactly when the C string of the haystack
    contains the C string of the needle. *)
Lemma strstr_is_Some (haystack needle : string) :
  is_Some (strstr haystack needle)
  <-> is_substring (c_str needle) (c_str haystack).
Proof. apply find_from_is_Some. Qed.

(** A string without NUL is its own C string. *)
Lemma c_str_without_NUL (s : string) :
  (forall c, In c (list_ascii_of_string s) -> c <> zero) -> c_str s = s.
Proof.
  induction s as [| c s IH]; intros Hs; simpl; [reflexivity |].
  destruct (Ascii.eqb_spec c zero) as [-> | Hne].
  - exfalso. apply (Hs zero); [left; reflexivity | reflexivity].
  - rewrite IH; [reflexivity |]. intros d Hd. apply Hs. right. exact Hd.
Qed.

Section MetadataProperties.
Variable logId2Metadata : nat -> LogMetadata.

Lemma elem_of_matching (searchString : string) (ids : list nat) (i : nat) :
  i ∈ matching logId2Metadata searchString ids
  <-> i ∈ ids
      /\ is_substring (c_str searchString)
                      (c_str (fmtString (logId2Metadata i))).
Proof.
  induction ids as [| j ids IH]; simpl.
  - split; [intros Hin | intros [Hin _]]; inversion Hin.
  - pose proof (strstr_is_Some (fmtString (logId2Metadata j)) searchString)
      as Hj.
    destruct (strstr (fmtString (logId2Metadata j)) searchString) as [r |].
    + rewrite !elem_of_cons, IH. split.
      * intros [-> | [Hin Hsub]]; [| tauto].
        split; [left; reflexivity |]. apply Hj. eexists; reflexivity.
      * intros [[-> | Hin] Hsub]; tauto.
    + rewrite elem_of_cons, IH. split; [tauto |].
      intros [[-> | Hin] Hsub]; [| tauto].
      apply Hj in Hsub. destruct Hsub as [r Hr]. discriminate.
Qed.

Lemma matching_StronglySorted (searchString : string) (ids : list nat) :
  StronglySorted lt ids ->
  StronglySorted lt (matching logId2Metadata searchString ids).
Proof.
  induction 1 as [| j ids Hsorted IH Hall]; simpl; [constructor |].
  destruct (strstr (fmtString (logId2Metadata j)) searchString); [| exact IH].
  constructor; [exact IH |].
  rewrite Forall_forall in *. intros i Hi.
  apply Hall. apply elem_of_matching in Hi. tauto.
Qed.

End MetadataProperties.

Lemma seq_StronglySorted (start len : nat) : StronglySorted lt (seq start len).
Proof.
  revert start. induction len as [| len IH]; intros start; simpl; constructor.
  - apply IH.
  - rewrite Forall_forall. intros i Hi.
    apply elem_of_seq in Hi. lia.
Qed.

(** For a search string and format strings without NUL the rows are those of
    the format strings that contain the search string itself. *)
Lemma printLogMetadataContainingSubstring_rows_without_NUL
    (numLogIds : nat) (logId2Metadata : nat -> LogMetadata)
    (searchString : string) :
  (forall c, In c (list_ascii_of_string searchString) -> c <> zero) ->
  (forall i c, (i < numLogIds)%nat ->
     In c (list_ascii_of_string (fmtString (logId2Metadata i))) -> c <> zero) ->
  exists ids : list nat,
    printLogMetadataContainingSubstring numLogIds logId2Metadata searchString
    = header_row :: map (metadata_row logId2Metadata) ids
    /\ StronglySorted lt ids
    /\ forall i : nat,
         i ∈ ids
         <-> (i < numLogIds)%nat
             /\ is_substring searchString (fmtString (logId2Metadata i)).
Proof.
  intros Hsearch Hfmt.
  exists (matching logId2Metadata searchString (seq 0 numLogIds)).
  split; [reflexivity |].
  split; [apply matching_StronglySorted, seq_StronglySorted |].
  intros i.
  rewrite elem_of_matching, elem_of_seq, (c_str_without_NUL _ Hsearch).
  split; intros [Hi Hsub]; (split; [lia |]).
  - rewrite c_str_without_NUL in Hsub by (intros c; apply Hfmt; lia).
    exact Hsub.
  - rewrite c_str_without_NUL by (intros c; apply Hfmt; lia).
    exact Hsub.
Qed.

(** What the search selects, for every search string.  After the header row
    the function prints exactly one row (id, file name, line number, format
    string) for each id below [numLogIds] whose format string contains the
    characters of [searchString] before its first NUL, which is what
    [strstr] reads of [searchString.c_str()]; the rows come in ascending
    order of the ids, and there is no other row. *)
Theorem printLogMetadataContainingSubstring_rows
    (numLogIds : nat) (logId2Metadata : nat -> LogMetadata)
    (searchString : string) :
  exists ids : list nat,
    printLogMetadataContainingSubstring numLogIds logId2Metadata searchString
    = header_row :: map (metadata_row logId2Metadata) ids
    /\ StronglySorted lt ids
    /\ forall i : nat,
         i ∈ ids
         <-> (i < numLogIds)%nat
             /\ is_substring (c_str searchString)
                             (c_str (fmtString (logId2Metadata i))).
Proof.
  exists (matching logId2Metadata searchString (seq 0 numLogIds)).
  split; [reflexivity |]. split.
  - apply matching_StronglySorted, seq_StronglySorted.
  - intros i. rewrite elem_of_matching, elem_of_seq.
    split; intros [Hi Hsub]; (split; [lia | exact Hsub]).
Qed.

(** ** [main] *)

(** Every [exit] taken while the count is read has status [-1]. *)
Lemma msgsToPrint_of_exit (rest : list string) (o : Outcome) :
  msgsToPrint_of rest = inl o -> o.2 = -1.
Proof.
  unfold msgsToPrint_of.
  destruct rest as [| argv2 more]; [discriminate |].
  destruct (stoi argv2) as [v | |].
  - destruct (v <? 0); [| discriminate]. intros [= <-]. reflexivity.
  - intros [= <-]. reflexivity.
  - intros [= <-]. reflexivity.
Qed.

(** The value handed to the decoder is never 0 and never below [-1]. *)
Lemma msgsToPrint_of_value (rest : list string) (msgsToPrint : Z) :
  msgsToPrint_of rest = inr msgsToPrint -> msgsToPrint = -1 \/ 0 < msgsToPrint.
Proof.
  unfold msgsToPrint_of.
  destruct rest as [| argv2 more]; [intros [= <-]; left; reflexivity |].
  destruct (stoi argv2) as [v | |]; try discriminate.
  destruct (Z.ltb_spec v 0); [discriminate |].
  destruct (Z.eqb_spec v 0); intros [= <-]; lia.
Qed.

Section MainProperties.
Context `{Decoder File}.

(** The status of [main] in all cases: 1 with fewer than two arguments, [-1]
    when the count is refused, 0 otherwise, whether or not the file could be
    opened. *)
Lemma main_status (argv : list string) :
  (main argv).2 =
  match argv with
  | [] | [_] => 1
  | _ :: _ :: rest =>
      match msgsToPrint_of rest with
      | inl _ => -1
      | inr _ => 0
      end
  end.
Proof.
  destruct argv as [| argv0 [| argv1 rest]]; try reflexivity.
  unfold main.
  destruct (msgsToPrint_of rest) as [o | n] eqn:Hcount.
  - apply msgsToPrint_of_exit in Hcount. exact Hcount.
  - destruct (Decoder_open (c_str argv1)); reflexivity.
Qed.

(** With two arguments or more, a count that is accepted and a file that
    cannot be opened, [main] writes one line and returns 0. *)
Lemma main_unopenable (argv0 argv1 : string) (rest : list string) (n : Z) :
  msgsToPrint_of rest = inr n ->
  Decoder_open (c_str argv1) = None ->
  main (argv0 :: argv1 :: rest)
  = (["Unable to open file " +:+ c_str argv1 +:+ CRLF], 0).
Proof. intros Hcount Hopen. unfold main. rewrite Hcount, Hopen. reflexivity. Qed.


End MainProperties.

(** C1, at a log file that cannot be opened: [main] prints the message and
    returns 0, where the specification has the exit code [-1]. *)
Theorem main_unopenable_file_returns_0 :
  main (H := spec_Decoder (fun _ => None)) ["decompressor"; "missing.log"]
  = (["Unable to open file missing.log" +:+ CRLF], 0).
Proof. reflexivity. Qed.

(** ** Threads, the registry and the sentinel *)

Section SchedulingProperties.
Context `{NanoLogConfig}.

Lemma call_method_rel (l : Label) (a : nat) (m : M unit) (w w' : World) :
  is_method l = true ->
  (forall sb sb' tr, m sb [] = inr (tt, sb', tr) ->
     id sb' = id sb /\ shouldDeallocate sb' = shouldDeallocate sb) ->
  call_method a m w = Some w' ->
  step_rel l w w'.
Proof.
  intros Hl Hm. unfold call_method.
  destruct (heap w !! a) as [sb |] eqn:Ha; [| discriminate]. simpl.
  destruct (m sb []) as [e | [[[] sb'] tr]] eqn:Hrun; [discriminate |].
  intros [= <-].
  destruct (Hm sb sb' tr Hrun) as [Hid Hflag].
  eapply R_method; eassumption.
Qed.

Lemma finishReservation_frame (nbytes : Z) (sb sb' : StagingBuffer) (tr : list Event) :
  finishReservation nbytes sb [] = inr (tt, sb', tr) ->
  id sb' = id sb /\ shouldDeallocate sb' = shouldDeallocate sb.
Proof.
  rewrite finishReservation_unfold.
  destruct (nbytes <? minFreeSpace sb); [| discriminate].
  destruct (producerPos sb + nbytes <? storage sb + STAGING_BUFFER_SIZE);
    [| discriminate].
  intros [= <- _]. split; reflexivity.
Qed.

Lemma consume_frame (nbytes : Z) (sb sb' : StagingBuffer) (tr : list Event) :
  consume nbytes sb [] = inr (tt, sb', tr) ->
  id sb' = id sb /\ shouldDeallocate sb' = shouldDeallocate sb.
Proof.
  rewrite consume_unfold. intros [= <- _]. split; reflexivity.
Qed.

(** Every step of the scheduler is one of the rules. *)
Lemma step_step_rel (l : Label) (w w' : World) :
  step l w = Some w' -> step_rel l w w'.
Proof.
  destruct l as [| t addr | t nbytes | a nbytes | t]; simpl.
  - intros [= <-]. constructor.
  - unfold ensureStagingBufferAllocated.
    destruct (threads w !! t) as [[p c] |] eqn:Ht; [| discriminate].
    unfold ensure_statement. simpl.
    destruct c.
    + destruct p as [a |]; intros [= <-].
      * eapply R_skip; eassumption.
      * apply (R_move t addr w None Running None Ensure_lock
                 (nanoLogSingleton w) Ht).
        constructor. reflexivity.
    + destruct (bufferMutex (nanoLogSingleton w)) eqn:Hm; [discriminate |].
      intros [= <-]. eapply R_move; [eassumption |]. constructor. exact Hm.
    + intros [= <-]. eapply R_move; [eassumption |]. constructor.
    + intros [= <-]. eapply R_move; [eassumption |]. constructor.
    + intros [= <-]. eapply R_new; eassumption.
    + destruct (bufferMutex (nanoLogSingleton w)) eqn:Hm; [discriminate |].
      intros [= <-]. eapply R_move; [eassumption |]. constructor. exact Hm.
    + intros [= <-]. eapply R_move; [eassumption |]. constructor.
    + intros [= <-]. eapply R_move; [eassumption |]. constructor.
    + discriminate.
  - destruct (threads w !! t) as [[p c] |]; [| discriminate]. simpl.
    destruct c; try discriminate.
    destruct p as [a |]; [| discriminate].
    apply call_method_rel; [reflexivity |].
    intros sb sb' tr. apply finishReservation_frame.
  - apply call_method_rel; [reflexivity |].
    intros sb sb' tr. apply consume_frame.
  - destruct (threads w !! t) as [[p c] |] eqn:Ht; [| discriminate]. simpl.
    destruct c; try discriminate.
    destruct p as [a |]; simpl; intros [= <-].
    + eapply R_exit_mark; eassumption.
    + eapply R_exit_null; eassumption.
Qed.

(** An invariant of the steps holds along every schedule. *)
Lemma run_invariant (P : World -> Prop) :
  (forall l w w', P w -> step l w = Some w' -> P w') ->
  forall ls w w', P w -> run ls w = Some w' -> P w'.
Proof.
  intros Hstep ls. induction ls as [| l ls IH]; intros w w' Hw; simpl.
  - intros [= <-]. exact Hw.
  - destruct (step l w) as [w1 |] eqn:Hl; [| discriminate]. simpl.
    apply IH. eapply Hstep; eassumption.
Qed.

Lemma reachable_invariant (P : World -> Prop) :
  P init ->
  (forall l w w', P w -> step l w = Some w' -> P w') ->
  forall w, reachable w -> P w.
Proof.
  intros Hinit Hstep w [ls Hrun].
  eapply run_invariant; eassumption.
Qed.

Lemma run_app (ls1 ls2 : list Label) (w : World) :
  run (ls1 ++ ls2) w = w' ← run ls1 w ; run ls2 w'.
Proof.
  revert w. induction ls1 as [| l ls1 IH]; intros w; simpl; [reflexivity |].
  destruct (step l w) as [w1 |]; simpl; [apply IH | reflexivity].
Qed.

Lemma run_singleton (l : Label) (w : World) : run [l] w = step l w.
Proof. simpl. destruct (step l w); reflexivity. Qed.

(** *** The ids *)

Lemma inflight_snoc (ths : list Thread) (th : Thread) :
  inflight (ths ++ [th]) = inflight ths ++ inflight_of th.
Proof.
  unfold inflight. rewrite bind_app. simpl. rewrite app_nil_r. reflexivity.
Qed.

Lemma perm_snoc_middle {A : Type} (l1 l2 : list A) (x : A) :
  l1 ++ x :: l2 ≡ₚ (l1 ++ l2) ++ [x].
Proof. rewrite <- Permutation_middle. apply Permutation_cons_append. Qed.

(** The ids in flight around the one of thread [t]. *)
Lemma inflight_split (ths : list Thread) (t : nat) (th : Thread) :
  ths !! t = Some th ->
  exists before after,
    inflight ths = before ++ inflight_of th ++ after
    /\ forall th', inflight (<[t := th']> ths)
                   = before ++ inflight_of th' ++ after.
Proof.
  intros Ht.
  exists (inflight (take t ths)), (inflight (drop (S t) ths)).
  assert (Hlen : (t < length ths)%nat) by (eapply lookup_lt_Some; eassumption).
  split.
  - rewrite <- (take_drop_middle ths t th Ht) at 1.
    unfold inflight. rewrite bind_app. reflexivity.
  - intros th'. rewrite insert_take_drop by exact Hlen.
    unfold inflight. rewrite bind_app. reflexivity.
Qed.

Lemma fmap_id_insert (h : list StagingBuffer) (a : nat) (sb sb' : StagingBuffer) :
  h !! a = Some sb -> id sb' = id sb -> id <$> <[a := sb']> h = id <$> h.
Proof.
  intros Ha Hid. rewrite list_fmap_insert.
  apply list_insert_id. rewrite list_lookup_fmap, Ha, Hid. reflexivity.
Qed.

Lemma fmap_id_mark (h : list StagingBuffer) (a : nat) :
  id <$> alter mark_shouldDeallocate a h = id <$> h.
Proof.
  revert a. induction h as [| sb h IH]; intros [| a]; try reflexivity.
  change (id sb :: (id <$> alter mark_shouldDeallocate a h)
          = id sb :: (id <$> h)).
  f_equal. apply IH.
Qed.

(** A step hands out no id, or it hands out [nextBufferId] and replaces it
    by its successor modulo [2^32]. *)
Lemma issued_step (l : Label) (w w' : World) :
  step_rel l w w' ->
  (issued w' ≡ₚ issued w
   /\ nextBufferId (nanoLogSingleton w') = nextBufferId (nanoLogSingleton w))
  \/ (issued w' ≡ₚ issued w ++ [nextBufferId (nanoLogSingleton w)]
      /\ nextBufferId (nanoLogSingleton w')
         = wrap32 (nextBufferId (nanoLogSingleton w) + 1)).
Proof.
  destruct 1 as [w | t addr w a Ht | t addr w p c p' c' n' Ht Hmove
                 | t addr w p bufferId Ht | l a sb sb' w Hl Ha Hid Hflag
                 | t w Ht | t w a Ht]; unfold issued; simpl.
  - left. rewrite inflight_snoc. simpl. rewrite app_nil_r. split; reflexivity.
  - left. split; reflexivity.
  - destruct (inflight_split _ _ _ Ht) as (before & after & Hold & Hnew).
    rewrite Hold, (Hnew (mkThread p' c')).
    destruct Hmove; simpl; try (left; split; reflexivity).
    right. split; [| reflexivity].
    rewrite !app_assoc. apply perm_snoc_middle.
  - left. split; [| reflexivity].
    destruct (inflight_split _ _ _ Ht) as (before & after & Hold & Hnew).
    rewrite Hold, (Hnew (mkThread (Some (length (heap w))) Ensure_relock)).
    rewrite fmap_app, <- app_assoc. apply Permutation_app_head.
    simpl. apply Permutation_middle.
  - left. split; [| reflexivity].
    rewrite (fmap_id_insert _ _ _ _ Ha Hid). reflexivity.
  - left. split; [| reflexivity].
    destruct (inflight_split _ _ _ Ht) as (before & after & Hold & Hnew).
    rewrite Hold, (Hnew (mkThread None Terminated)). reflexivity.
  - left. split; [| reflexivity].
    rewrite fmap_id_mark.
    destruct (inflight_split _ _ _ Ht) as (before & after & Hold & Hnew).
    rewrite Hold, (Hnew (mkThread None Terminated)). reflexivity.
Qed.

Lemma nth_id_S (k : nat) : wrap32 (nth_id k + 1) = nth_id (S k).
Proof.
  unfold nth_id, wrap32.
  rewrite Z.add_mod_idemp_l by (apply Z.pow_nonzero; lia).
  f_equal. lia.
Qed.

Lemma nth_id_small (k : nat) :
  Z.of_nat k < 2 ^ 32 - 1 -> nth_id k = 1 + Z.of_nat k.
Proof. intros Hk. unfold nth_id, wrap32. apply Z.mod_small. lia. Qed.

Lemma ids_inv_init : ids_inv init.
Proof. split; reflexivity. Qed.

Lemma ids_inv_step (l : Label) (w w' : World) :
  ids_inv w -> step l w = Some w' -> ids_inv w'.
Proof.
  intros [Hnext Hperm] Hstep. apply step_step_rel in Hstep.
  destruct (issued_step _ _ _ Hstep) as [[Hsame Hn] | [Hmore Hn]].
  - unfold ids_inv. rewrite Hn, (Permutation_length Hsame).
    split; [exact Hnext |]. rewrite Hsame. exact Hperm.
  - assert (Hlen : length (issued w') = S (length (issued w))).
    { rewrite (Permutation_length Hmore), length_app. simpl. lia. }
    unfold ids_inv. rewrite Hn, Hlen, Hnext. split; [apply nth_id_S |].
    rewrite Hmore, seq_S, fmap_app. simpl.
    rewrite Hnext. apply Permutation_app_tail. exact Hperm.
Qed.

Lemma reachable_ids_inv (w : World) : reachable w -> ids_inv w.
Proof.
  apply reachable_invariant; [exact ids_inv_init | exact ids_inv_step].
Qed.

Lemma nth_id_seq (n : nat) :
  Z.of_nat n < 2 ^ 32 -> nth_id <$> seq 0 n = seqZ 1 (Z.of_nat n).
Proof.
  intros Hn. unfold seqZ. rewrite Nat2Z.id.
  apply list_fmap_ext. intros i k Hk.
  apply lookup_seq in Hk as [-> Hk].
  rewrite nth_id_small by lia. lia.
Qed.

(** *** The mutex *)

Lemma mutex_inv_init : mutex_inv init.
Proof.
  intros t. simpl. split; [discriminate |].
  intros [th [Hth _]]. destruct t; discriminate.
Qed.

Lemma mutex_inv_thread (w : World) (t : nat) (th th' : Thread)
    (n' : NanoLog) (h' : list StagingBuffer) :
  mutex_inv w ->
  threads w !! t = Some th ->
  (holds_mutex (pc th') = holds_mutex (pc th)
   /\ bufferMutex n' = bufferMutex (nanoLogSingleton w))
  \/ (holds_mutex (pc th) = false /\ holds_mutex (pc th') = true
      /\ bufferMutex (nanoLogSingleton w) = None /\ bufferMutex n' = Some t)
  \/ (holds_mutex (pc th) = true /\ holds_mutex (pc th') = false
      /\ bufferMutex n' = None) ->
  mutex_inv (mkWorld n' h' (<[t := th']> (threads w))).
Proof.
  intros Hinv Ht Hcase t'. simpl.
  assert (Hlen : (t < length (threads w))%nat)
    by (eapply lookup_lt_Some; eassumption).
  destruct (decide (t' = t)) as [-> | Hne].
  - rewrite list_lookup_insert_eq by exact Hlen.
    specialize (Hinv t).
    destruct Hcase as [[Hh Hm] | [(Hh & Hh' & Hm & Hm') | (Hh & Hh' & Hm')]].
    + rewrite Hm, Hinv. split.
      * intros (th0 & Hth0 & Hholds). exists th'. split; [reflexivity |].
        rewrite Hh. congruence.
      * intros (th0 & [= <-] & Hholds). exists th. split; [exact Ht |].
        rewrite <- Hh. exact Hholds.
    + rewrite Hm'. split; [| reflexivity].
      intros _. exists th'. split; [reflexivity | exact Hh'].
    + rewrite Hm'. split; [discriminate |].
      intros (th0 & [= <-] & Hholds). congruence.
  - rewrite list_lookup_insert_ne by congruence.
    destruct Hcase as [[Hh Hm] | [(Hh & Hh' & Hm & Hm') | (Hh & Hh' & Hm')]].
    + rewrite Hm. apply Hinv.
    + rewrite Hm'. split; [congruence |].
      intros Hex. apply Hinv in Hex. congruence.
    + rewrite Hm'. split; [discriminate |].
      intros Hex. apply Hinv in Hex.
      assert (Ht0 : bufferMutex (nanoLogSingleton w) = Some t)
        by (apply Hinv; exists th; split; assumption).
      congruence.
Qed.

Lemma mutex_inv_step (l : Label) (w w' : World) :
  mutex_inv w -> step l w = Some w' -> mutex_inv w'.
Proof.
  intros Hinv Hstep. apply step_step_rel in Hstep.
  destruct Hstep as [w | t addr w a Ht | t addr w p c p' c' n' Ht Hmove
                    | t addr w p bufferId Ht | l a sb sb' w Hl Ha Hid Hflag
                    | t w Ht | t w a Ht].
  - intros t. simpl. rewrite (Hinv t). split.
    + intros (th & Hth & Hholds). exists th. split; [| exact Hholds].
      apply lookup_app_Some. left. exact Hth.
    + intros (th & Hth & Hholds). exists th. split; [| exact Hholds].
      apply lookup_app_Some in Hth as [Hth | [_ Hth]]; [exact Hth |].
      destruct (t - length (threads w))%nat as [| k];
        [injection Hth as <-; discriminate | discriminate].
  - exact Hinv.
  - apply (mutex_inv_thread w t (mkThread p c) (mkThread p' c') n' (heap w)
             Hinv Ht).
    destruct Hmove as [Hp | Hm | | bufferId | Hm | |]; simpl; auto 10.
  - apply (mutex_inv_thread w t _ _ (nanoLogSingleton w) _ Hinv Ht).
    left. split; reflexivity.
  - exact Hinv.
  - apply (mutex_inv_thread w t _ _ (nanoLogSingleton w) _ Hinv Ht).
    left. split; reflexivity.
  - apply (mutex_inv_thread w t _ _ (nanoLogSingleton w) _ Hinv Ht).
    left. split; reflexivity.
Qed.

Lemma reachable_mutex_inv (w : World) : reachable w -> mutex_inv w.
Proof.
  apply reachable_invariant; [exact mutex_inv_init | exact mutex_inv_step].
Qed.

(** The ids of the first [2^32 - 1] buffers.  An id is taken from
    [nextBufferId] by the thread that owns [bufferMutex], and the buffer is
    constructed by a thread that does not own it.  The id handed out after
    [k] others is [1 + k] modulo [2^32].  While fewer than [2^32] ids have
    been handed out, the ids handed out (those of the buffers constructed so
    far and those a thread has taken and not yet given to a constructor) are
    [1, 2, ..., n] without repetition, so that distinct buffers have
    distinct ids, in every interleaving of the threads. *)
Theorem buffer_ids_fresh_below_wrap (w : World) :
  reachable w ->
  let n := length (issued w) in
  (forall t th,
      threads w !! t = Some th ->
      (pc th = Ensure_increment ->
       bufferMutex (nanoLogSingleton w) = Some t)
      /\ (forall bufferId, pc th = Ensure_new bufferId ->
          bufferMutex (nanoLogSingleton w) <> Some t))
  /\ nextBufferId (nanoLogSingleton w) = nth_id n
  /\ issued w ≡ₚ nth_id <$> seq 0 n
  /\ (Z.of_nat n < 2 ^ 32 ->
      issued w ≡ₚ seqZ 1 (Z.of_nat n)
      /\ NoDup (issued w)
      /\ NoDup (id <$> heap w)
      /\ (forall sb, sb ∈ heap w -> 1 <= id sb <= Z.of_nat n)).
Proof.
  intros Hreach n.
  destruct (reachable_ids_inv w Hreach) as [Hnext Hperm].
  split; [| split; [exact Hnext | split; [exact Hperm |]]].
  - intros t th Ht. pose proof (reachable_mutex_inv w Hreach t) as Hm.
    split.
    + intros Hpc. apply Hm. exists th. split; [exact Ht |].
      rewrite Hpc. reflexivity.
    + intros bufferId Hpc Hown. apply Hm in Hown as (th0 & Hth0 & Hholds).
      rewrite Ht in Hth0. injection Hth0 as <-.
      rewrite Hpc in Hholds. discriminate.
  - intros Hbound. fold n in Hperm.
    rewrite nth_id_seq in Hperm by exact Hbound.
    assert (Hnodup : NoDup (issued w)).
    { rewrite Hperm. apply NoDup_seqZ. }
    split; [exact Hperm |]. split; [exact Hnodup |]. split.
    + unfold issued in Hnodup. apply NoDup_app in Hnodup. tauto.
    + intros sb Hsb.
      assert (Hin : id sb ∈ issued w).
      { unfold issued. apply elem_of_app. left.
        apply list_elem_of_fmap_2. exact Hsb. }
      rewrite Hperm in Hin. apply elem_of_seqZ in Hin. lia.
Qed.

(** *** One thread after the other *)

Lemma lookup_last_thread (ths : list Thread) (th : Thread) :
  (ths ++ [th]) !! length ths = Some th.
Proof. apply list_lookup_middle. reflexivity. Qed.

Lemma insert_last_thread (ths : list Thread) (th th' : Thread) :
  <[length ths := th']> (ths ++ [th]) = ths ++ [th'].
Proof.
  induction ths as [| th0 ths IH]; simpl; [reflexivity |].
  f_equal. exact IH.
Qed.

Lemma ensure_at_last (n : NanoLog) (h : list StagingBuffer)
    (ths : list Thread) (th : Thread) (addr : Z) :
  ensureStagingBufferAllocated (length ths) addr (mkWorld n h (ths ++ [th]))
  = ensure_statement (length ths) addr th (mkWorld n h (ths ++ [th])).
Proof.
  unfold ensureStagingBufferAllocated. simpl.
  rewrite lookup_last_thread. reflexivity.
Qed.

Lemma alter_last_buffer (h : list StagingBuffer) (sb : StagingBuffer) :
  alter mark_shouldDeallocate (length h) (h ++ [sb])
  = h ++ [mark_shouldDeallocate sb].
Proof.
  induction h as [| sb0 h IH]; [reflexivity |].
  change (sb0 :: alter mark_shouldDeallocate (length h) (h ++ [sb])
          = sb0 :: (h ++ [mark_shouldDeallocate sb])).
  f_equal. exact IH.
Qed.

Lemma exit_at_last (n : NanoLog) (h : list StagingBuffer)
    (ths : list Thread) (sb : StagingBuffer) :
  step (L_exit (length ths))
       (mkWorld n (h ++ [sb]) (ths ++ [mkThread (Some (length h)) Running]))
  = Some (mkWorld n (h ++ [mark_shouldDeallocate sb])
                  (ths ++ [mkThread None Terminated])).
Proof.
  unfold step. cbn [threads heap].
  rewrite lookup_last_thread. simpl.
  rewrite alter_last_buffer. unfold with_thread. simpl.
  rewrite insert_last_thread. reflexivity.
Qed.

Lemma run_allocate (tb : list ptr) (next : Z) (h : list StagingBuffer)
    (ths : list Thread) :
  run (allocate (length ths)) (mkWorld (mkNanoLog tb next None) h ths)
  = Some (mkWorld (mkNanoLog (tb ++ [Some (length h)]) (wrap32 (next + 1)) None)
                  (h ++ [mark_shouldDeallocate (StagingBuffer_new 4096 next)])
                  (ths ++ [mkThread None Terminated])).
Proof.
  unfold allocate. rewrite run_app.
  assert (Hensure :
    run (L_spawn :: replicate 8 (L_ensure (length ths) 4096))
        (mkWorld (mkNanoLog tb next None) h ths)
    = Some (mkWorld (mkNanoLog (tb ++ [Some (length h)]) (wrap32 (next + 1)) None)
                    (h ++ [StagingBuffer_new 4096 next])
                    (ths ++ [mkThread (Some (length h)) Running]))).
  { simpl.
    repeat (rewrite ensure_at_last; unfold ensure_statement, with_thread; simpl;
            rewrite insert_last_thread).
    reflexivity. }
  rewrite Hensure. cbn [mbind option_bind].
  rewrite run_singleton. apply exit_at_last.
Qed.

Lemma churn_S (n : nat) : churn (S n) = churn n ++ allocate n.
Proof.
  unfold churn. rewrite seq_S, bind_app. reflexivity.
Qed.

Lemma replicate_snoc {A : Type} (n : nat) (x : A) :
  replicate (S n) x = replicate n x ++ [x].
Proof.
  induction n as [| n IH]; [reflexivity |].
  change (x :: replicate (S n) x = x :: (replicate n x ++ [x])).
  f_equal. exact IH.
Qed.

Lemma run_churn (n : nat) : run (churn n) init = Some (churned n).
Proof.
  induction n as [| n IH]; [reflexivity |].
  rewrite churn_S, run_app, IH.
  assert (Hths : length (threads (churned n)) = n).
  { simpl. apply length_replicate. }
  pose proof (run_allocate (Some <$> seq 0 n) (nth_id n)
                (heap (churned n)) (threads (churned n))) as Hrun.
  rewrite Hths in Hrun.
  etransitivity; [exact Hrun |].
  unfold churned, heap, threads.
  rewrite !seq_S, !fmap_app, length_fmap, length_seq, nth_id_S, replicate_snoc.
  reflexivity.
Qed.

Lemma churned_heap_lookup (n k : nat) :
  (k < n)%nat ->
  heap (churned n) !! k
  = Some (mark_shouldDeallocate (StagingBuffer_new 4096 (nth_id k))).
Proof.
  intros Hk. unfold churned, heap.
  rewrite list_lookup_fmap, lookup_seq_lt by exact Hk. reflexivity.
Qed.

(** After [2^32] allocations the id 1 is handed out again. *)
Lemma churn_wraps (n : nat) :
  Z.of_nat n = 2 ^ 32 ->
  exists w sb sb',
    run (churn (S n)) init = Some w
    /\ heap w !! 0%nat = Some sb
    /\ heap w !! n = Some sb'
    /\ 0%nat <> n
    /\ id sb = 1
    /\ id sb' = 1.
Proof.
  intros Hn.
  exists (churned (S n)),
         (mark_shouldDeallocate (StagingBuffer_new 4096 (nth_id 0))),
         (mark_shouldDeallocate (StagingBuffer_new 4096 (nth_id n))).
  split; [apply run_churn |].
  split; [apply churned_heap_lookup; lia |].
  split; [apply churned_heap_lookup; lia |].
  split; [lia |].
  split; [reflexivity |].
  unfold mark_shouldDeallocate, StagingBuffer_new, id, nth_id, wrap32.
  rewrite Hn. reflexivity.
Qed.

(** *** The sentinel and [shouldDeallocate] *)

Lemma ptr_inv_init : ptr_inv init.
Proof.
  split.
  - intros t th a Ht. destruct t; discriminate.
  - intros t t' th th' a Ht. destruct t; discriminate.
Qed.

(** A thread moves on and keeps its pointer, or drops it. *)
Lemma ptr_inv_thread (w : World) (t : nat) (th th' : Thread) (n' : NanoLog) :
  ptr_inv w ->
  threads w !! t = Some th ->
  stagingBuffer th' = stagingBuffer th \/ stagingBuffer th' = None ->
  ptr_inv (mkWorld n' (heap w) (<[t := th']> (threads w))).
Proof.
  intros [Hlive Hown] Ht Hp.
  assert (Hlen : (t < length (threads w))%nat)
    by (eapply lookup_lt_Some; eassumption).
  assert (Hold : forall t1 th1 a,
             <[t := th']> (threads w) !! t1 = Some th1 ->
             stagingBuffer th1 = Some a ->
             exists th0, threads w !! t1 = Some th0
                         /\ stagingBuffer th0 = Some a).
  { intros t1 th1 a Ht1 Ha. destruct (decide (t1 = t)) as [-> | Hne].
    - rewrite list_lookup_insert_eq in Ht1 by exact Hlen.
      injection Ht1 as <-. exists th. split; [exact Ht |].
      destruct Hp as [Hp | Hp]; congruence.
    - rewrite list_lookup_insert_ne in Ht1 by congruence.
      exists th1. split; assumption. }
  split; simpl.
  - intros t1 th1 a Ht1 Ha.
    destruct (Hold t1 th1 a Ht1 Ha) as (th0 & Hth0 & Ha0).
    eapply Hlive; eassumption.
  - intros t1 t2 th1 th2 a Ht1 Ht2 Ha1 Ha2.
    destruct (Hold t1 th1 a Ht1 Ha1) as (th01 & Hth01 & Ha01).
    destruct (Hold t2 th2 a Ht2 Ha2) as (th02 & Hth02 & Ha02).
    eapply Hown; eassumption.
Qed.

Lemma ptr_inv_step (l : Label) (w w' : World) :
  ptr_inv w -> step l w = Some w' -> ptr_inv w'.
Proof.
  intros Hinv Hstep. apply step_step_rel in Hstep.
  destruct Hstep as [w | t addr w a Ht | t addr w p c p' c' n' Ht Hmove
                    | t addr w p bufferId Ht | l a sb sb' w Hl Ha Hid Hflag
                    | t w Ht | t w a Ht].
  - destruct Hinv as [Hlive Hown].
    assert (Hold : forall t th a,
               (threads w ++ [mkThread None Running]) !! t = Some th ->
               stagingBuffer th = Some a -> threads w !! t = Some th).
    { intros t th a Ht Hp.
      apply lookup_app_Some in Ht as [Ht | [_ Ht]]; [exact Ht |].
      destruct (t - length (threads w))%nat as [| k]; [| discriminate].
      injection Ht as <-. discriminate. }
    split; simpl.
    + intros t th a Ht Hp. eapply Hlive; [| eassumption]. eapply Hold; eassumption.
    + intros t t' th th' a Ht Ht' Hp Hp'.
      eapply Hown; [eapply Hold | eapply Hold | |]; eassumption.
  - exact Hinv.
  - apply (ptr_inv_thread w t (mkThread p c) (mkThread p' c') n' Hinv Ht).
    destruct Hmove; simpl; auto.
  - destruct Hinv as [Hlive Hown].
    assert (Hlen : (t < length (threads w))%nat)
      by (eapply lookup_lt_Some; eassumption).
    assert (Hold : forall t1 th1 a,
               <[t := mkThread (Some (length (heap w))) Ensure_relock]>
                 (threads w) !! t1 = Some th1 ->
               stagingBuffer th1 = Some a ->
               (t1 = t /\ a = length (heap w))
               \/ (t1 <> t /\ threads w !! t1 = Some th1
                   /\ (a < length (heap w))%nat)).
    { intros t1 th1 a Ht1 Hp. destruct (decide (t1 = t)) as [-> | Hne].
      - rewrite list_lookup_insert_eq in Ht1 by exact Hlen.
        injection Ht1 as <-. left. split; [reflexivity |].
        simpl in Hp. congruence.
      - rewrite list_lookup_insert_ne in Ht1 by congruence.
        right. split; [exact Hne |]. split; [exact Ht1 |].
        destruct (Hlive t1 th1 a Ht1 Hp) as (sb & Hsb & _).
        eapply lookup_lt_Some; eassumption. }
    split; simpl.
    + intros t1 th1 a Ht1 Hp.
      destruct (Hold t1 th1 a Ht1 Hp) as [[-> ->] | (Hne & Hth1 & Ha)].
      * eexists. split; [apply list_lookup_middle; reflexivity | reflexivity].
      * destruct (Hlive t1 th1 a Hth1 Hp) as (sb & Hsb & Hflag).
        exists sb. split; [| exact Hflag].
        rewrite lookup_app_l by exact Ha. exact Hsb.
    + intros t1 t2 th1 th2 a Ht1 Ht2 Hp1 Hp2.
      destruct (Hold t1 th1 a Ht1 Hp1) as [[-> Ha1] | (Hne1 & Hth1 & Ha1)];
        destruct (Hold t2 th2 a Ht2 Hp2) as [[-> Ha2] | (Hne2 & Hth2 & Ha2)];
        try reflexivity; try lia.
      eapply Hown; eassumption.
  - destruct Hinv as [Hlive Hown]. split; simpl; [| exact Hown].
    intros t th b Ht Hp.
    destruct (Hlive t th b Ht Hp) as (sb0 & Hsb0 & Hflag0).
    destruct (decide (b = a)) as [-> | Hne].
    + exists sb'. split.
      * apply list_lookup_insert_eq. eapply lookup_lt_Some; eassumption.
      * congruence.
    + exists sb0. split; [| exact Hflag0].
      rewrite list_lookup_insert_ne by congruence. exact Hsb0.
  - apply (ptr_inv_thread w t _ _ (nanoLogSingleton w) Hinv Ht). right.
    reflexivity.
  - pose proof (ptr_inv_thread w t _ (mkThread None Terminated)
                  (nanoLogSingleton w) Hinv Ht (or_intror eq_refl))
      as [Hlive' Hown'].
    simpl in Hlive', Hown'. destruct Hinv as [Hlive Hown].
    assert (Hlen : (t < length (threads w))%nat)
      by (eapply lookup_lt_Some; eassumption).
    split; simpl; [| exact Hown'].
    intros t1 th1 b Ht1 Hp.
    destruct (Hlive' t1 th1 b Ht1 Hp) as (sb & Hsb & Hflag).
    exists sb. split; [| exact Hflag].
    destruct (decide (t1 = t)) as [-> | Hne].
    + rewrite list_lookup_insert_eq in Ht1 by exact Hlen.
      injection Ht1 as <-. discriminate.
    + rewrite list_lookup_insert_ne in Ht1 by congruence.
      assert (Hab : a <> b).
      { intros ->. apply Hne. eapply Hown; [exact Ht1 | exact Ht | exact Hp |].
        reflexivity. }
      rewrite list_lookup_alter_ne by exact Hab. exact Hsb.
Qed.

Lemma reachable_ptr_inv (w : World) : reachable w -> ptr_inv w.
Proof.
  apply reachable_invariant; [exact ptr_inv_init | exact ptr_inv_step].
Qed.

(** What a step does to the flag of the buffer at [a]: the buffer stays, a
    flag that is set stays set, and a flag is set only by the sentinel of
    the thread whose pointer designates the buffer, which loses the pointer
    in that step. *)
Lemma shouldDeallocate_step (l : Label) (w w' : World) (a : nat) (sb : StagingBuffer) :
  step_rel l w w' ->
  heap w !! a = Some sb ->
  exists sb',
    heap w' !! a = Some sb'
    /\ (shouldDeallocate sb = true -> shouldDeallocate sb' = true)
    /\ (shouldDeallocate sb = false -> shouldDeallocate sb' = true ->
        exists t, l = L_exit t
                  /\ threads w !! t = Some (mkThread (Some a) Running)
                  /\ threads w' !! t = Some (mkThread None Terminated)).
Proof.
  intros Hstep Ha.
  assert (Hsame : exists sb',
             Some sb = Some sb'
             /\ (shouldDeallocate sb = true -> shouldDeallocate sb' = true)
             /\ (shouldDeallocate sb = false -> shouldDeallocate sb' = true ->
                 exists t, l = L_exit t
                   /\ threads w !! t = Some (mkThread (Some a) Running)
                   /\ threads w' !! t = Some (mkThread None Terminated))).
  { exists sb. split; [reflexivity |]. split; [tauto | congruence]. }
  destruct Hstep as [w | t addr w a0 Ht | t addr w p c p' c' n' Ht Hmove
                    | t addr w p bufferId Ht | l a0 sb0 sb0' w Hl Ha0 Hid Hflag
                    | t w Ht | t w a0 Ht]; simpl;
    try (rewrite Ha; exact Hsame).
  - rewrite lookup_app_l by (eapply lookup_lt_Some; eassumption).
    rewrite Ha. exact Hsame.
  - destruct (decide (a = a0)) as [-> | Hne].
    + rewrite list_lookup_insert_eq by (eapply lookup_lt_Some; eassumption).
      exists sb0'. split; [reflexivity |].
      assert (sb0 = sb) by congruence. subst sb0.
      split; congruence.
    + rewrite list_lookup_insert_ne by congruence.
      rewrite Ha. exact Hsame.
  - destruct (decide (a = a0)) as [-> | Hne].
    + rewrite list_lookup_alter_eq, Ha. simpl.
      eexists. split; [reflexivity |]. split; [reflexivity |].
      intros _ _. exists t. split; [reflexivity |]. split; [exact Ht |].
      apply list_lookup_insert_eq. eapply lookup_lt_Some; eassumption.
    + rewrite list_lookup_alter_ne by congruence.
      rewrite Ha. exact Hsame.
Qed.

Lemma marked_step (l : Label) (w w' : World) (a : nat) :
  step l w = Some w' ->
  marked l w = Some a ->
  exists t, l = L_exit t
            /\ threads w !! t = Some (mkThread (Some a) Running)
            /\ heap w' = alter mark_shouldDeallocate a (heap w).
Proof.
  destruct l as [| t addr | t nbytes | a0 nbytes | t]; simpl; try discriminate.
  destruct (threads w !! t) as [[p c] |] eqn:Ht; [| discriminate]. simpl.
  destruct c; try discriminate.
  intros Hstep ->. simpl in Hstep. injection Hstep as <-.
  exists t. split; [reflexivity |]. split; [exact Ht | reflexivity].
Qed.

(** A buffer that a schedule marks is not marked when the schedule starts. *)
Lemma marks_unmarked (ls : list Label) :
  forall w a sb,
    ptr_inv w -> a ∈ marks ls w -> heap w !! a = Some sb ->
    shouldDeallocate sb = false.
Proof.
  induction ls as [| l ls IH]; intros w a sb Hinv Hin Ha; simpl in Hin.
  - inversion Hin.
  - destruct (step l w) as [w' |] eqn:Hstep; [| inversion Hin].
    apply elem_of_app in Hin as [Hin | Hin].
    + destruct (marked l w) as [a0 |] eqn:Hmark; [| inversion Hin].
      apply list_elem_of_singleton in Hin as ->.
      destruct (marked_step _ _ _ _ Hstep Hmark) as (t & _ & Ht & _).
      destruct Hinv as [Hlive _].
      destruct (Hlive t _ a0 Ht eq_refl) as (sb0 & Hsb0 & Hflag).
      congruence.
    + pose proof (ptr_inv_step _ _ _ Hinv Hstep) as Hinv'.
      destruct (shouldDeallocate_step _ _ _ a sb (step_step_rel _ _ _ Hstep) Ha)
        as (sb' & Hsb' & Hmono & _).
      pose proof (IH w' a sb' Hinv' Hin Hsb') as Hflag'.
      destruct (shouldDeallocate sb); [| reflexivity].
      rewrite Hmono in Hflag' by reflexivity. discriminate.
Qed.

Lemma marks_NoDup (ls : list Label) :
  forall w, ptr_inv w -> NoDup (marks ls w).
Proof.
  induction ls as [| l ls IH]; intros w Hinv; simpl; [constructor |].
  destruct (step l w) as [w' |] eqn:Hstep; [| constructor].
  pose proof (ptr_inv_step _ _ _ Hinv Hstep) as Hinv'.
  destruct (marked l w) as [a |] eqn:Hmark; simpl; [| apply IH, Hinv'].
  constructor; [| apply IH, Hinv'].
  intros Hin.
  destruct (marked_step _ _ _ _ Hstep Hmark) as (t & _ & Ht & Hheap).
  destruct Hinv as [Hlive _].
  destruct (Hlive t _ a Ht eq_refl) as (sb & Hsb & Hflag).
  assert (Ha' : heap w' !! a = Some (mark_shouldDeallocate sb)).
  { rewrite Hheap, list_lookup_alter_eq, Hsb. reflexivity. }
  pose proof (marks_unmarked ls w' a _ Hinv' Hin Ha') as Hcontra.
  discriminate.
Qed.

(** C7. Along every schedule each buffer is marked at most once.  In every
    reachable world a step keeps a set [shouldDeallocate] set; it sets the
    flag of a buffer only as the sentinel's destructor of the ending thread
    whose [stagingBuffer] designates that buffer, the flag was false before,
    and the step leaves that pointer null; the destructor of a thread whose
    pointer is null changes neither the heap, nor the singleton, nor another
    thread. *)
Theorem shouldDeallocate_set_once (ls : list Label) (w : World) :
  run ls init = Some w ->
  NoDup (marks ls init)
  /\ (forall l w' a sb,
        step l w = Some w' -> heap w !! a = Some sb ->
        exists sb',
          heap w' !! a = Some sb'
          /\ (shouldDeallocate sb = true -> shouldDeallocate sb' = true)
          /\ (shouldDeallocate sb = false -> shouldDeallocate sb' = true ->
              marked l w = Some a
              /\ exists t, l = L_exit t
                   /\ threads w !! t = Some (mkThread (Some a) Running)
                   /\ threads w' !! t = Some (mkThread None Terminated)))
  /\ (forall l w' a,
        step l w = Some w' -> marked l w = Some a ->
        exists sb, heap w !! a = Some sb
                   /\ shouldDeallocate sb = false
                   /\ heap w' !! a = Some (mark_shouldDeallocate sb))
  /\ (forall t w',
        threads w !! t = Some (mkThread None Running) ->
        step (L_exit t) w = Some w' ->
        marked (L_exit t) w = None
        /\ heap w' = heap w
        /\ nanoLogSingleton w' = nanoLogSingleton w
        /\ threads w' = <[t := mkThread None Terminated]> (threads w))
  /\ (forall h, StagingBufferDestroyer_dtor None h = (None, h)).
Proof.
  intros Hrun.
  assert (Hinv : ptr_inv w) by (apply reachable_ptr_inv; exists ls; exact Hrun).
  split; [apply marks_NoDup, ptr_inv_init |].
  split; [| split; [| split; [| reflexivity]]].
  - intros l w' a sb Hstep Ha.
    destruct (shouldDeallocate_step _ _ _ a sb (step_step_rel _ _ _ Hstep) Ha)
      as (sb' & Hsb' & Hmono & Hset).
    exists sb'. split; [exact Hsb' |]. split; [exact Hmono |].
    intros Hoff Hon. destruct (Hset Hoff Hon) as (t & -> & Ht & Ht').
    split; [| exists t; repeat split; assumption].
    simpl. rewrite Ht. reflexivity.
  - intros l w' a Hstep Hmark.
    destruct (marked_step _ _ _ _ Hstep Hmark) as (t & _ & Ht & Hheap).
    destruct Hinv as [Hlive _].
    destruct (Hlive t _ a Ht eq_refl) as (sb & Hsb & Hflag).
    exists sb. split; [exact Hsb |]. split; [exact Hflag |].
    rewrite Hheap, list_lookup_alter_eq, Hsb. reflexivity.
  - intros t w' Ht. simpl. rewrite Ht. simpl.
    intros [= <-]. repeat split; reflexivity.
Qed.

End SchedulingProperties.

(** * Further properties *)

(** ** The producer and the consumer on one buffer *)

Section ProducerConsumer.
Context `{NanoLogConfig}.

(** The consumer behind the producer.  When [consumerPos <= producerPos] and
    [nbytes] is at most the number of bytes between the two, [consume(nbytes)]
    issues the load fence and then stores [consumerPos + nbytes], a sum that
    does not wrap; the consumer does not pass the producer, it reaches the
    producer exactly when [nbytes] is the whole distance, and this is when
    the buffer of a thread that has ended becomes deletable.  No other
    member changes. *)
Theorem consume_advances (sb : StagingBuffer) (nbytes : Z) (tr : list Event) :
  0 <= consumerPos sb ->
  producerPos sb < 2 ^ 64 ->
  0 <= nbytes <= producerPos sb - consumerPos sb ->
  exists sb',
    consume nbytes sb tr
    = inr (tt, sb', tr ++ [Elfence; Estore FconsumerPos (consumerPos sb + nbytes)])
    /\ consumerPos sb' = consumerPos sb + nbytes
    /\ consumerPos sb' = wrap64 (consumerPos sb + nbytes)
    /\ consumerPos sb <= consumerPos sb' <= producerPos sb'
    /\ (consumerPos sb' = producerPos sb'
        <-> nbytes = producerPos sb - consumerPos sb)
    /\ checkCanDelete sb'
       = shouldDeallocate sb && (nbytes =? producerPos sb - consumerPos sb)
    /\ producerPos sb' = producerPos sb
    /\ minFreeSpace sb' = minFreeSpace sb
    /\ endOfRecordedSpace sb' = endOfRecordedSpace sb
    /\ shouldDeallocate sb' = shouldDeallocate sb
    /\ id sb' = id sb
    /\ cyclesProducerBlocked sb' = cyclesProducerBlocked sb
    /\ storage sb' = storage sb.
Proof.
  intros Hc Hp Hn. rewrite consume_unfold. eexists. split; [reflexivity |].
  unfold checkCanDelete. simpl.
  split; [reflexivity |].
  split; [symmetry; apply wrap64_small; unfold is_uint64; lia |].
  split; [lia |]. split; [lia |]. split.
  - f_equal.
    destruct (Z.eqb_spec (consumerPos sb + nbytes) (producerPos sb));
      destruct (Z.eqb_spec nbytes (producerPos sb - consumerPos sb));
      try reflexivity; lia.
  - repeat split; reflexivity.
Qed.

(** The producer and the consumer write different members: a commit followed
    by a consume and the same consume followed by the same commit fail the
    same assertion, or leave the same buffer. *)
Theorem finishReservation_consume_commute
    (sb : StagingBuffer) (n k : Z) (tr : list Event) :
  match (finishReservation n ;; consume k) sb tr,
        (consume k ;; finishReservation n) sb tr with
  | inr (_, sb1, _), inr (_, sb2, _) => sb1 = sb2
  | inl e1, inl e2 => e1 = e2
  | _, _ => False
  end.
Proof.
  unfold mbind, M_bind.
  rewrite consume_unfold, !finishReservation_unfold. simpl.
  destruct (n <? minFreeSpace sb); [| reflexivity].
  destruct (producerPos sb + n <? storage sb + STAGING_BUFFER_SIZE);
    [| reflexivity].
  rewrite consume_unfold. reflexivity.
Qed.


Lemma total_nonneg (ns : list Z) : Forall (fun n => 0 <= n) ns -> 0 <= total ns.
Proof. induction 1 as [| n ns Hn Hns IH]; simpl; lia. Qed.

(** Commits to a buffer in which [minFreeSpace] is exactly the space between
    [producerPos] and the end of [storage]. *)
Lemma commits_from (ns : list Z) :
  forall (sb : StagingBuffer) (tr : list Event),
    Forall (fun n => 0 <= n) ns ->
    is_uint64 (minFreeSpace sb) ->
    1 <= minFreeSpace sb ->
    producerPos sb + minFreeSpace sb = storage sb + STAGING_BUFFER_SIZE ->
    final (commits ns sb tr)
    = if total ns <? minFreeSpace sb
      then Some (store FproducerPos (producerPos sb + total ns)
                   (store FminFreeSpace (minFreeSpace sb - total ns) sb))
      else None.
Proof.
  induction ns as [| n ns IH]; intros sb tr Hns Hm Hone Hinv.
  - simpl. destruct (Z.ltb_spec 0 (minFreeSpace sb)); [| lia].
    destruct sb; simpl. do 2 f_equal; lia.
  - inversion Hns as [| n' ns' Hn Hns']; subst.
    pose proof (total_nonneg ns Hns') as Htot.
    change (commits (n :: ns)) with (finishReservation n ;; commits ns).
    unfold mbind, M_bind. rewrite finishReservation_unfold.
    destruct (Z.ltb_spec n (minFreeSpace sb)) as [H1 | H1].
    + destruct (Z.ltb_spec (producerPos sb + n)
                           (storage sb + STAGING_BUFFER_SIZE)); [| lia].
      rewrite IH; simpl;
        rewrite ?(wrap64_small (minFreeSpace sb - n))
          by (unfold is_uint64 in *; lia);
        try assumption; try lia; [| unfold is_uint64 in *; lia].
      destruct (Z.ltb_spec (total ns) (minFreeSpace sb - n));
        destruct (Z.ltb_spec (n + total ns) (minFreeSpace sb));
        try lia; [| reflexivity].
      unfold store. simpl. do 2 f_equal; lia.
    + simpl. destruct (Z.ltb_spec (n + total ns) (minFreeSpace sb));
        [lia | reflexivity].
Qed.

(** Commits to a fresh buffer all pass their assertions exactly when they add
    up to less than the capacity; the buffer they leave has [producerPos] at
    the sum, at least one byte of [minFreeSpace], [minFreeSpace] equal to the
    space up to the end of [storage], and cannot be deleted. *)
Theorem commits_fresh (storage_addr bufferId : Z) (ns : list Z) (tr : list Event) :
  0 < STAGING_BUFFER_SIZE < 2 ^ 64 ->
  Forall (fun n => 0 <= n) ns ->
  (is_Some (final (commits ns (StagingBuffer_new storage_addr bufferId) tr))
   <-> total ns < STAGING_BUFFER_SIZE)
  /\ forall sb',
       final (commits ns (StagingBuffer_new storage_addr bufferId) tr) = Some sb' ->
       producerPos sb' = storage_addr + total ns
       /\ minFreeSpace sb' = STAGING_BUFFER_SIZE - total ns
       /\ 1 <= minFreeSpace sb'
       /\ producerPos sb' + minFreeSpace sb' = storage sb' + STAGING_BUFFER_SIZE
       /\ consumerPos sb' = storage_addr
       /\ checkCanDelete sb' = false.
Proof.
  intros Hsize Hns.
  rewrite commits_from; simpl; try assumption; try lia;
    [| unfold is_uint64; lia].
  destruct (Z.ltb_spec (total ns) STAGING_BUFFER_SIZE) as [Hlt | Hge].
  - split; [split; [intros _; exact Hlt | intros _; eexists; reflexivity] |].
    intros sb' [= <-]. unfold checkCanDelete. simpl.
    repeat split; lia.
  - split; [split; [intros [sb' Hsb']; discriminate | lia] |].
    intros sb' Hsb'. discriminate.
Qed.

(** While [minFreeSpace] does not exceed the space between [producerPos] and
    the end of [storage], a reservation that takes the fast path can be
    committed: the bytes from the pointer it returned lie inside [storage],
    the commit passes both assertions and keeps that bound, and the next
    fast-path reservation starts right behind the committed bytes. *)
Theorem reserve_then_commit
    (sb : StagingBuffer) (nbytes p : Z) (tr : list Event) :
  0 <= nbytes ->
  is_uint64 (minFreeSpace sb) ->
  storage sb <= producerPos sb ->
  producerPos sb + minFreeSpace sb <= storage sb + STAGING_BUFFER_SIZE ->
  reserveProducerSpace sb nbytes = Return p ->
  storage sb <= p /\ p + nbytes < storage sb + STAGING_BUFFER_SIZE
  /\ exists sb' tr',
      finishReservation nbytes sb tr = inr (tt, sb', tr')
      /\ producerPos sb' = p + nbytes
      /\ producerPos sb' + minFreeSpace sb' <= storage sb' + STAGING_BUFFER_SIZE
      /\ forall nbytes' p',
           reserveProducerSpace sb' nbytes' = Return p' -> p' = p + nbytes.
Proof.
  intros Hn Hm Hlo Hinv. unfold reserveProducerSpace.
  destruct (Z.ltb_spec nbytes (minFreeSpace sb)) as [Hlt | Hge];
    [| discriminate].
  intros [= <-]. split; [exact Hlo |]. split; [lia |].
  rewrite finishReservation_unfold.
  apply Z.ltb_lt in Hlt as Hlt'. rewrite Hlt'.
  assert (Hend : (producerPos sb + nbytes
                  <? storage sb + STAGING_BUFFER_SIZE) = true)
    by (apply Z.ltb_lt; lia).
  rewrite Hend. eexists. eexists. split; [reflexivity |].
  simpl. rewrite wrap64_small by (unfold is_uint64 in *; lia).
  split; [reflexivity |]. split; [lia |].
  intros nbytes' p'.
  destruct (nbytes' <? minFreeSpace sb - nbytes); [| discriminate].
  intros [= <-]. reflexivity.
Qed.

End ProducerConsumer.

(** ** Threads and the registry *)

Section ThreadsAndRegistry.
Context `{NanoLogConfig}.

(** The buffer of a thread whose sentinel is not being destroyed, that is
    of a thread that runs or is inside [ensureStagingBufferAllocated],
    cannot be deleted: its [shouldDeallocate] is false and with it the
    compression thread's test [checkCanDelete()], wherever the consumer
    stands. *)
Theorem live_buffer_not_deletable (w : World) (t : nat) (th : Thread) (a : nat) :
  reachable w ->
  threads w !! t = Some th ->
  pc th <> Terminated ->
  stagingBuffer th = Some a ->
  exists sb,
    heap w !! a = Some sb
    /\ shouldDeallocate sb = false
    /\ checkCanDelete sb = false.
Proof.
  intros Hreach Ht _ Ha.
  destruct (reachable_ptr_inv w Hreach) as [Hlive _].
  destruct (Hlive t th a Ht Ha) as (sb & Hsb & Hflag).
  exists sb. split; [exact Hsb |]. split; [exact Hflag |].
  unfold checkCanDelete. rewrite Hflag. reflexivity.
Qed.

(** When a thread with a buffer ends, its buffer becomes deletable exactly if
    the consumer has caught up with the producer; no other buffer changes. *)
Theorem exit_deletable_iff_drained (w : World) (t a : nat) :
  reachable w ->
  threads w !! t = Some (mkThread (Some a) Running) ->
  exists w' sb sb',
    step (L_exit t) w = Some w'
    /\ heap w !! a = Some sb
    /\ heap w' !! a = Some sb'
    /\ checkCanDelete sb = false
    /\ (checkCanDelete sb' = true <-> consumerPos sb = producerPos sb)
    /\ consumerPos sb' = consumerPos sb
    /\ producerPos sb' = producerPos sb
    /\ forall b, b <> a -> heap w' !! b = heap w !! b.
Proof.
  intros Hreach Ht.
  destruct (reachable_ptr_inv w Hreach) as [Hlive _].
  destruct (Hlive t _ a Ht eq_refl) as (sb & Hsb & Hflag).
  eexists. exists sb, (mark_shouldDeallocate sb).
  split; [simpl; rewrite Ht; reflexivity |].
  split; [exact Hsb |]. simpl.
  split; [rewrite list_lookup_alter_eq, Hsb; reflexivity |].
  split; [unfold checkCanDelete; rewrite Hflag; reflexivity |].
  split; [unfold checkCanDelete; simpl; apply Z.eqb_eq |].
  split; [reflexivity |]. split; [reflexivity |].
  intros b Hb. apply list_lookup_alter_ne. congruence.
Qed.

(** At most one thread is between a [lock] and the next [unlock] of
    [bufferMutex], and a step that changes [nextBufferId] or [threadBuffers]
    is a step of the thread that owns the mutex. *)
Theorem bufferMutex_exclusion (w : World) :
  reachable w ->
  (forall t1 t2 th1 th2,
      threads w !! t1 = Some th1 -> threads w !! t2 = Some th2 ->
      holds_mutex (pc th1) = true -> holds_mutex (pc th2) = true ->
      t1 = t2)
  /\ (forall l w',
        step l w = Some w' ->
        nextBufferId (nanoLogSingleton w') <> nextBufferId (nanoLogSingleton w)
        \/ threadBuffers (nanoLogSingleton w')
           <> threadBuffers (nanoLogSingleton w) ->
        exists t addr,
          l = L_ensure t addr /\ bufferMutex (nanoLogSingleton w) = Some t).
Proof.
  intros Hreach. pose proof (reachable_mutex_inv w Hreach) as Hm.
  split.
  - intros t1 t2 th1 th2 Ht1 Ht2 Hh1 Hh2.
    assert (H1 : bufferMutex (nanoLogSingleton w) = Some t1)
      by (apply Hm; exists th1; split; assumption).
    assert (H2 : bufferMutex (nanoLogSingleton w) = Some t2)
      by (apply Hm; exists th2; split; assumption).
    congruence.
  - intros l w' Hstep Hchange. apply step_step_rel in Hstep.
    destruct Hstep as [w | t addr w a Ht | t addr w p c p' c' n' Ht Hmove
                      | t addr w p bufferId Ht | l a sb sb' w Hl Ha Hid Hflag
                      | t w Ht | t w a Ht];
      simpl in Hchange; try (exfalso; destruct Hchange; congruence).
    exists t, addr. split; [reflexivity |].
    destruct Hmove; simpl in Hchange;
      try (exfalso; destruct Hchange; congruence);
      apply Hm; eexists; (split; [exact Ht | reflexivity]).
Qed.

(** A thread inside [ensureStagingBufferAllocated] is never stuck for good:
    its next statement can be executed, or the thread that owns the mutex it
    waits for can execute its next statement. *)
Theorem ensure_no_deadlock (w : World) (t : nat) (th : Thread) :
  reachable w ->
  threads w !! t = Some th ->
  pc th <> Running -> pc th <> Terminated ->
  exists t',
    (t' = t \/ bufferMutex (nanoLogSingleton w) = Some t')
    /\ forall addr, is_Some (step (L_ensure t' addr) w).
Proof.
  intros Hreach Ht Hrun Hterm.
  pose proof (reachable_mutex_inv w Hreach) as Hm.
  assert (Hself : bufferMutex (nanoLogSingleton w) = None
                  \/ (pc th <> Ensure_lock /\ pc th <> Ensure_relock) ->
                  forall addr, is_Some (step (L_ensure t addr) w)).
  { intros Hfree addr. simpl. unfold ensureStagingBufferAllocated.
    rewrite Ht. simpl. unfold ensure_statement.
    destruct (pc th); try congruence; try (eexists; reflexivity);
      (destruct Hfree as [-> | [? ?]]; [eexists; reflexivity | congruence]). }
  destruct (bufferMutex (nanoLogSingleton w)) as [t' |] eqn:Hown.
  - assert (Hcase : (pc th = Ensure_lock \/ pc th = Ensure_relock)
                     \/ (pc th <> Ensure_lock /\ pc th <> Ensure_relock))
      by (destruct (pc th); auto; right; split; discriminate).
    destruct Hcase as [Hwait | Hgo].
    + destruct (proj1 (Hm t') Hown) as (th' & Ht' & Hholds).
      exists t'. split; [right; reflexivity |].
      intros addr. simpl. unfold ensureStagingBufferAllocated.
      rewrite Ht'. simpl. unfold ensure_statement.
      destruct (pc th'); try discriminate; eexists; reflexivity.
    + exists t. split; [left; reflexivity |].
      apply Hself. right. exact Hgo.
  - exists t. split; [left; reflexivity |]. apply Hself. left. reflexivity.
Qed.

Lemma ensure_at_insert (n : NanoLog) (h : list StagingBuffer)
    (ths : list Thread) (t : nat) (th : Thread) (addr : Z) :
  (t < length ths)%nat ->
  ensureStagingBufferAllocated t addr (mkWorld n h (<[t := th]> ths))
  = ensure_statement t addr th (mkWorld n h (<[t := th]> ths)).
Proof.
  intros Ht. unfold ensureStagingBufferAllocated. simpl.
  rewrite list_lookup_insert_eq by exact Ht. reflexivity.
Qed.

Lemma run_ensure_alone (tb : list ptr) (next : Z) (h : list StagingBuffer)
    (ths : list Thread) (t : nat) (addr : Z) :
  ths !! t = Some (mkThread None Running) ->
  run (ensure_alone t addr) (mkWorld (mkNanoLog tb next None) h ths)
  = Some (mkWorld (mkNanoLog (tb ++ [Some (length h)]) (wrap32 (next + 1)) None)
                  (h ++ [StagingBuffer_new addr next])
                  (<[t := mkThread (Some (length h)) Running]> ths)).
Proof.
  intros Ht.
  assert (Hlen : (t < length ths)%nat) by (eapply lookup_lt_Some; eassumption).
  rewrite <- (list_insert_id ths t _ Ht) at 1.
  unfold ensure_alone. simpl.
  repeat (rewrite ensure_at_insert by exact Hlen;
          unfold ensure_statement, with_thread; simpl;
          rewrite list_insert_insert_eq).
  reflexivity.
Qed.

Lemma run_ensure_idle (w : World) (t a : nat) (addr : Z) (k : nat) :
  threads w !! t = Some (mkThread (Some a) Running) ->
  run (replicate k (L_ensure t addr)) w = Some w.
Proof.
  intros Ht. induction k as [| k IH]; [reflexivity |].
  change (replicate (S k) (L_ensure t addr))
    with (L_ensure t addr :: replicate k (L_ensure t addr)).
  cbn [run step]. unfold ensureStagingBufferAllocated.
  rewrite Ht. exact IH.
Qed.

(** [ensureStagingBufferAllocated()] run alone by a thread without a buffer,
    while the mutex is free: it constructs one buffer with the id that
    [nextBufferId] held, which is empty and not deletable, appends its
    address to [threadBuffers], advances [nextBufferId] by one modulo [2^32],
    leaves the mutex free and the other threads as they were; the thread
    points to the new buffer, and a further call changes nothing. *)
Theorem ensureStagingBufferAllocated_alone (w : World) (t : nat) (addr : Z) :
  threads w !! t = Some (mkThread None Running) ->
  bufferMutex (nanoLogSingleton w) = None ->
  exists w',
    run (ensure_alone t addr) w = Some w'
    /\ heap w' = heap w ++ [StagingBuffer_new addr (nextBufferId (nanoLogSingleton w))]
    /\ threadBuffers (nanoLogSingleton w')
       = threadBuffers (nanoLogSingleton w) ++ [Some (length (heap w))]
    /\ nextBufferId (nanoLogSingleton w')
       = wrap32 (nextBufferId (nanoLogSingleton w) + 1)
    /\ bufferMutex (nanoLogSingleton w') = None
    /\ threads w' !! t = Some (mkThread (Some (length (heap w))) Running)
    /\ (forall t', t' <> t -> threads w' !! t' = threads w !! t')
    /\ forall addr', run (ensure_alone t addr') w' = Some w'.
Proof.
  destruct w as [[tb next mx] h ths].
  cbn [nanoLogSingleton heap threads threadBuffers nextBufferId bufferMutex].
  intros Ht ->.
  assert (Hlen : (t < length ths)%nat) by (eapply lookup_lt_Some; eassumption).
  eexists. split; [apply run_ensure_alone; exact Ht |].
  cbn [nanoLogSingleton heap threads threadBuffers nextBufferId bufferMutex].
  repeat (split; [reflexivity |]).
  split; [apply list_lookup_insert_eq; exact Hlen |].
  split; [intros t' Hne; apply list_lookup_insert_ne; congruence |].
  intros addr'. apply (run_ensure_idle _ t (length h)).
  apply list_lookup_insert_eq. exact Hlen.
Qed.

(** The first [__internal_reserveAlloc(nbytes)] of a thread, run alone while
    the mutex is free, allocates the thread's buffer and, for [nbytes] below
    the capacity, returns the start of its [storage]; the same call repeated
    without a commit returns the same pointer and changes nothing. *)
Theorem first_reserveAlloc (w : World) (t : nat) (addr nbytes : Z) :
  threads w !! t = Some (mkThread None Running) ->
  bufferMutex (nanoLogSingleton w) = None ->
  nbytes < STAGING_BUFFER_SIZE ->
  exists w',
    __internal_reserveAlloc t addr nbytes w = Some (Return addr, w')
    /\ run (ensure_alone t addr) w = Some w'
    /\ threads w' !! t = Some (mkThread (Some (length (heap w))) Running)
    /\ heap w' !! length (heap w)
       = Some (StagingBuffer_new addr (nextBufferId (nanoLogSingleton w)))
    /\ forall addr',
         __internal_reserveAlloc t addr' nbytes w' = Some (Return addr, w').
Proof.
  destruct w as [[tb next mx] h ths].
  cbn [nanoLogSingleton heap threads threadBuffers nextBufferId bufferMutex].
  intros Ht -> Hn.
  assert (Hlen : (t < length ths)%nat) by (eapply lookup_lt_Some; eassumption).
  assert (Hnew : (h ++ [StagingBuffer_new addr next]) !! length h
                 = Some (StagingBuffer_new addr next))
    by (apply list_lookup_middle; reflexivity).
  assert (Hfast : reserveProducerSpace (StagingBuffer_new addr next) nbytes
                  = Return addr).
  { unfold reserveProducerSpace. simpl.
    apply Z.ltb_lt in Hn as ->. reflexivity. }
  eexists. split; [| split; [apply run_ensure_alone; exact Ht |]].
  - unfold __internal_reserveAlloc. cbn [threads]. rewrite Ht.
    cbn [mbind option_bind pc stagingBuffer].
    rewrite (run_ensure_alone tb next h ths t addr Ht).
    cbn [mbind option_bind threads heap].
    rewrite list_lookup_insert_eq by exact Hlen.
    cbn [mbind option_bind stagingBuffer].
    rewrite Hnew. cbn [mbind option_bind]. rewrite Hfast. reflexivity.
  - cbn [heap threads].
    split; [apply list_lookup_insert_eq; exact Hlen |].
    split; [exact Hnew |].
    intros addr'. unfold __internal_reserveAlloc. cbn [threads].
    rewrite list_lookup_insert_eq by exact Hlen.
    cbn [mbind option_bind pc stagingBuffer threads heap].
    rewrite list_lookup_insert_eq by exact Hlen.
    cbn [mbind option_bind stagingBuffer].
    rewrite Hnew. cbn [mbind option_bind]. rewrite Hfast. reflexivity.
Qed.

(** *** The registry *)

Lemma registry_inv_init : registry_inv init.
Proof.
  repeat split; simpl.
  - constructor.
  - intros p Hp. inversion Hp.
  - intros t th Ht. destruct t; discriminate.
  - intros a Ha. lia.
Qed.

(** A thread moves on while the registry and the number of buffers stay. *)
Lemma registry_inv_thread (w : World) (t : nat) (th th' : Thread)
    (n' : NanoLog) (h' : list StagingBuffer) :
  registry_inv w ->
  threads w !! t = Some th ->
  threadBuffers n' = threadBuffers (nanoLogSingleton w) ->
  length h' = length (heap w) ->
  registered (threadBuffers (nanoLogSingleton w)) th' ->
  (forall a, stagingBuffer th = Some a ->
     pc th = Ensure_relock \/ pc th = Ensure_push ->
     Some a ∈ threadBuffers (nanoLogSingleton w)
     \/ (stagingBuffer th' = Some a
         /\ (pc th' = Ensure_relock \/ pc th' = Ensure_push))) ->
  registry_inv (mkWorld n' h' (<[t := th']> (threads w))).
Proof.
  intros (Hnd & Hval & Hreg & Hcov) Ht Htb Hlen Hth' Hkeep.
  assert (Hlt : (t < length (threads w))%nat)
    by (eapply lookup_lt_Some; eassumption).
  unfold registry_inv. simpl. rewrite Htb, Hlen.
  split; [exact Hnd |]. split; [exact Hval |]. split.
  - intros t1 th1 Ht1. destruct (decide (t1 = t)) as [-> | Hne].
    + rewrite list_lookup_insert_eq in Ht1 by exact Hlt.
      injection Ht1 as <-. exact Hth'.
    + rewrite list_lookup_insert_ne in Ht1 by congruence.
      eapply Hreg; eassumption.
  - intros a Ha. destruct (Hcov a Ha) as [Hin | (t0 & th0 & Ht0 & Hp0 & Hpc0)];
      [left; exact Hin |].
    destruct (decide (t0 = t)) as [-> | Hne].
    + assert (th0 = th) by congruence. subst th0.
      destruct (Hkeep a Hp0 Hpc0) as [Hin | [Hp' Hpc']]; [left; exact Hin |].
      right. exists t, th'. split; [| split; assumption].
      apply list_lookup_insert_eq. exact Hlt.
    + right. exists t0, th0. split; [| split; assumption].
      rewrite list_lookup_insert_ne by congruence. exact Ht0.
Qed.

Lemma registry_inv_step (l : Label) (w w' : World) :
  ptr_inv w -> registry_inv w -> step l w = Some w' -> registry_inv w'.
Proof.
  intros [Hlive Hown] Hinv Hstep. apply step_step_rel in Hstep.
  destruct Hstep as [w | t addr w a Ht | t addr w p c p' c' n' Ht Hmove
                    | t addr w p bufferId Ht | l a sb sb' w Hl Ha Hid Hflag
                    | t w Ht | t w a Ht].
  - destruct Hinv as (Hnd & Hval & Hreg & Hcov).
    unfold registry_inv. simpl.
    split; [exact Hnd |]. split; [exact Hval |]. split.
    + intros t th Ht. apply lookup_app_Some in Ht as [Ht | [_ Ht]].
      * eapply Hreg; eassumption.
      * destruct (t - length (threads w))%nat as [| k]; [| discriminate].
        injection Ht as <-. intros a Ha. discriminate.
    + intros a Ha. destruct (Hcov a Ha) as [Hin | (t0 & th0 & Ht0 & Hrest)];
        [left; exact Hin |].
      right. exists t0, th0. split; [| exact Hrest].
      apply lookup_app_Some. left. exact Ht0.
  - exact Hinv.
  - pose proof Hinv as (Hnd & Hval & Hreg & Hcov).
    pose proof (Hreg t _ Ht) as Hth. unfold registered in Hth. simpl in Hth.
    destruct Hmove as [Hp | Hm | | bufferId | Hm | |];
      try (apply (registry_inv_thread w t _ _ _ (heap w) Hinv Ht);
           [reflexivity | reflexivity | exact Hth
            | simpl; intros a0 Ha0 [Hpc | Hpc];
              try discriminate; right; split; auto]).
    + subst p.
      apply (registry_inv_thread w t _ _ _ (heap w) Hinv Ht);
        [reflexivity | reflexivity | reflexivity |].
      simpl. intros a0 Ha0. discriminate.
    + destruct Hth as (a & -> & Hnotin).
      destruct (Hlive t _ a Ht eq_refl) as (sb & Hsb & _).
      assert (Ha : (a < length (heap w))%nat)
        by (eapply lookup_lt_Some; eassumption).
      assert (Hlt : (t < length (threads w))%nat)
        by (eapply lookup_lt_Some; eassumption).
      unfold registry_inv. simpl.
      split; [| split; [| split]].
      * apply NoDup_app. split; [exact Hnd |]. split; [| apply NoDup_singleton].
        intros q Hq Hq'. apply list_elem_of_singleton in Hq' as ->.
        contradiction.
      * intros q Hq. apply elem_of_app in Hq as [Hq | Hq];
          [apply Hval; exact Hq |].
        apply list_elem_of_singleton in Hq as ->. exists a. split; [reflexivity | exact Ha].
      * intros t1 th1 Ht1. destruct (decide (t1 = t)) as [-> | Hne].
        -- rewrite list_lookup_insert_eq in Ht1 by exact Hlt.
           injection Ht1 as <-. unfold registered. simpl.
           exists a. split; [reflexivity |].
           apply elem_of_app. right. apply list_elem_of_singleton. reflexivity.
        -- rewrite list_lookup_insert_ne in Ht1 by congruence.
           pose proof (Hreg t1 th1 Ht1) as Hth1. unfold registered in *.
           destruct (pc th1); try exact Hth1.
           ++ intros b Hb. apply elem_of_app. left. apply Hth1. exact Hb.
           ++ destruct Hth1 as (b & Hb & Hbn). exists b. split; [exact Hb |].
              apply not_elem_of_app. split; [exact Hbn |].
              intros Hin. apply list_elem_of_singleton in Hin.
              injection Hin as ->. apply Hne.
              eapply Hown; [exact Ht1 | exact Ht | exact Hb | reflexivity].
           ++ destruct Hth1 as (b & Hb & Hbn). exists b. split; [exact Hb |].
              apply not_elem_of_app. split; [exact Hbn |].
              intros Hin. apply list_elem_of_singleton in Hin.
              injection Hin as ->. apply Hne.
              eapply Hown; [exact Ht1 | exact Ht | exact Hb | reflexivity].
           ++ destruct Hth1 as (b & Hb & Hbin). exists b. split; [exact Hb |].
              apply elem_of_app. left. exact Hbin.
      * intros b Hb.
        destruct (Hcov b Hb) as [Hin | (t0 & th0 & Ht0 & Hp0 & Hpc0)].
        -- left. apply elem_of_app. left. exact Hin.
        -- destruct (decide (t0 = t)) as [-> | Hne].
           ++ assert (th0 = mkThread (Some a) Ensure_push) by congruence.
              subst th0. simpl in Hp0. injection Hp0 as <-.
              left. apply elem_of_app. right.
              apply list_elem_of_singleton. reflexivity.
           ++ right. exists t0, th0. split; [| split; assumption].
              rewrite list_lookup_insert_ne by congruence. exact Ht0.
    + apply (registry_inv_thread w t _ _ _ (heap w) Hinv Ht);
        [reflexivity | reflexivity | |].
      * destruct Hth as (a & Ha & Hin). unfold registered. simpl.
        intros b Hb. congruence.
      * simpl. intros a0 Ha0 [Hpc | Hpc]; discriminate.
  - destruct Hinv as (Hnd & Hval & Hreg & Hcov).
    assert (Hlt : (t < length (threads w))%nat)
      by (eapply lookup_lt_Some; eassumption).
    unfold registry_inv. simpl. rewrite length_app. simpl.
    split; [exact Hnd |]. split; [| split].
    + intros q Hq. destruct (Hval q Hq) as (b & -> & Hb).
      exists b. split; [reflexivity | lia].
    + intros t1 th1 Ht1. destruct (decide (t1 = t)) as [-> | Hne].
      * rewrite list_lookup_insert_eq in Ht1 by exact Hlt.
        injection Ht1 as <-. unfold registered. simpl.
        exists (length (heap w)). split; [reflexivity |].
        intros Hin. destruct (Hval _ Hin) as (b & [= <-] & Hb). lia.
      * rewrite list_lookup_insert_ne in Ht1 by congruence.
        eapply Hreg; eassumption.
    + intros b Hb. destruct (decide (b = length (heap w))) as [-> | Hne].
      * right. exists t, (mkThread (Some (length (heap w))) Ensure_relock).
        split; [apply list_lookup_insert_eq; exact Hlt |].
        split; [reflexivity | left; reflexivity].
      * assert (Hb' : (b < length (heap w))%nat) by lia.
        destruct (Hcov b Hb') as [Hin | (t0 & th0 & Ht0 & Hp0 & Hpc0)];
          [left; exact Hin |].
        right. exists t0, th0. split; [| split; assumption].
        rewrite list_lookup_insert_ne; [exact Ht0 |].
        intros ->. rewrite Ht in Ht0. injection Ht0 as <-.
        simpl in Hpc0. destruct Hpc0; discriminate.
  - destruct Hinv as (Hnd & Hval & Hreg & Hcov).
    unfold registry_inv. simpl. rewrite length_insert.
    repeat split; assumption.
  - apply (registry_inv_thread w t _ _ _ (heap w) Hinv Ht);
      [reflexivity | reflexivity | reflexivity |].
    simpl. intros a0 Ha0. discriminate.
  - apply (registry_inv_thread w t _ _ (nanoLogSingleton w) _ Hinv Ht);
      [reflexivity | apply length_alter | reflexivity |].
    simpl. intros a0 Ha0 [Hpc | Hpc]; discriminate.
Qed.

Lemma reachable_registry_inv (w : World) : reachable w -> registry_inv w.
Proof.
  intros Hreach.
  apply (reachable_invariant (fun w => ptr_inv w /\ registry_inv w));
    [split; [exact ptr_inv_init | exact registry_inv_init] | | exact Hreach].
  intros l w1 w2 [Hptr Hreg] Hstep.
  split; [eapply ptr_inv_step | eapply registry_inv_step]; eassumption.
Qed.

(** [threadBuffers] holds no null pointer and no pointer twice, and every
    pointer in it designates a buffer; the buffer of a thread that has left
    [ensureStagingBufferAllocated] is in it; every buffer is in it, but for
    the one that a thread has constructed and is about to push. *)
Theorem registry_consistent (w : World) :
  reachable w ->
  NoDup (threadBuffers (nanoLogSingleton w))
  /\ (forall p, p ∈ threadBuffers (nanoLogSingleton w) ->
        exists a sb, p = Some a /\ heap w !! a = Some sb)
  /\ (forall t th a,
        threads w !! t = Some th -> pc th = Running ->
        stagingBuffer th = Some a ->
        Some a ∈ threadBuffers (nanoLogSingleton w))
  /\ (forall a sb,
        heap w !! a = Some sb ->
        Some a ∈ threadBuffers (nanoLogSingleton w)
        \/ exists t th, threads w !! t = Some th
                        /\ stagingBuffer th = Some a
                        /\ (pc th = Ensure_relock \/ pc th = Ensure_push)).
Proof.
  intros Hreach.
  destruct (reachable_registry_inv w Hreach) as (Hnd & Hval & Hreg & Hcov).
  split; [exact Hnd |]. split; [| split].
  - intros p Hp. destruct (Hval p Hp) as (a & -> & Ha).
    destruct (lookup_lt_is_Some_2 _ _ Ha) as [sb Hsb].
    exists a, sb. split; [reflexivity | exact Hsb].
  - intros t th a Ht Hpc Ha. pose proof (Hreg t th Ht) as Hth.
    unfold registered in Hth. rewrite Hpc in Hth. apply Hth. exact Ha.
  - intros a sb Hsb. apply Hcov. eapply lookup_lt_Some. exact Hsb.
Qed.

(** *** What no step changes *)

Lemma same_identity_refl (sb : StagingBuffer) : same_identity sb sb.
Proof. repeat split. Qed.

Lemma same_identity_trans (sb1 sb2 sb3 : StagingBuffer) :
  same_identity sb1 sb2 -> same_identity sb2 sb3 -> same_identity sb1 sb3.
Proof. unfold same_identity. intros (? & ? & ? & ?) (? & ? & ? & ?). repeat split; congruence. Qed.

Lemma call_method_same_identity (a0 : nat) (m : M unit) (w w' : World)
    (a : nat) (sb : StagingBuffer) :
  (forall sb0 sb0' tr, m sb0 [] = inr (tt, sb0', tr) -> same_identity sb0 sb0') ->
  call_method a0 m w = Some w' ->
  heap w !! a = Some sb ->
  exists sb', heap w' !! a = Some sb' /\ same_identity sb sb'.
Proof.
  intros Hm. unfold call_method.
  destruct (heap w !! a0) as [sb0 |] eqn:Ha0; [| discriminate]. simpl.
  destruct (m sb0 []) as [e | [[[] sb0'] tr]] eqn:Hrun; [discriminate |].
  intros [= <-] Ha. simpl.
  destruct (decide (a = a0)) as [-> | Hne].
  - rewrite list_lookup_insert_eq by (eapply lookup_lt_Some; eassumption).
    exists sb0'. split; [reflexivity |].
    assert (sb0 = sb) by congruence. subst sb0. eapply Hm. exact Hrun.
  - rewrite list_lookup_insert_ne by congruence.
    exists sb. split; [exact Ha | apply same_identity_refl].
Qed.

Lemma step_same_identity (l : Label) (w w' : World) (a : nat) (sb : StagingBuffer) :
  step l w = Some w' ->
  heap w !! a = Some sb ->
  exists sb', heap w' !! a = Some sb' /\ same_identity sb sb'.
Proof.
  intros Hstep Ha.
  assert (Hsame : exists sb', Some sb = Some sb' /\ same_identity sb sb')
    by (exists sb; split; [reflexivity | apply same_identity_refl]).
  destruct l as [| t addr | t nbytes | a0 nbytes | t].
  - injection Hstep as <-. simpl. rewrite Ha. exact Hsame.
  - apply step_step_rel in Hstep.
    inversion Hstep as [| | ? ? ? p c p' c' n' Ht Hmove | ? ? ? p bufferId Ht
                        | ? ? ? ? ? Hl | |]; subst; simpl.
    + rewrite Ha. exact Hsame.
    + rewrite Ha. exact Hsame.
    + rewrite lookup_app_l by (eapply lookup_lt_Some; eassumption).
      rewrite Ha. exact Hsame.
    + discriminate Hl.
  - simpl in Hstep.
    destruct (threads w !! t) as [[p c] |]; [| discriminate]. simpl in Hstep.
    destruct c; try discriminate. destruct p as [a0 |]; [| discriminate].
    eapply call_method_same_identity; [| exact Hstep | exact Ha].
    intros sb0 sb0' tr. rewrite finishReservation_unfold.
    destruct (nbytes <? minFreeSpace sb0); [| discriminate].
    destruct (producerPos sb0 + nbytes <? storage sb0 + STAGING_BUFFER_SIZE);
      [| discriminate].
    intros [= <- _]. repeat split.
  - simpl in Hstep.
    eapply call_method_same_identity; [| exact Hstep | exact Ha].
    intros sb0 sb0' tr. rewrite consume_unfold.
    intros [= <- _]. repeat split.
  - apply step_step_rel in Hstep.
    inversion Hstep as [| | | | ? ? ? ? ? Hl | ? ? Ht | ? ? a0 Ht]; subst; simpl.
    + discriminate Hl.
    + rewrite Ha. exact Hsame.
    + destruct (decide (a = a0)) as [-> | Hne].
      * rewrite list_lookup_alter_eq, Ha. simpl.
        eexists. split; [reflexivity |]. repeat split.
      * rewrite list_lookup_alter_ne by congruence.
        rewrite Ha. exact Hsame.
Qed.

(** No statement of the header takes a buffer away or assigns its [id],
    its [storage], its [endOfRecordedSpace] or its [cyclesProducerBlocked],
    and none clears its [shouldDeallocate]: along every schedule the buffer
    at an address stays there with these members as they were. *)
Theorem buffers_keep_identity (ls : list Label) :
  forall (w w' : World) (a : nat) (sb : StagingBuffer),
    run ls w = Some w' ->
    heap w !! a = Some sb ->
    exists sb',
      heap w' !! a = Some sb'
      /\ same_identity sb sb'
      /\ (shouldDeallocate sb = true -> shouldDeallocate sb' = true).
Proof.
  induction ls as [| l ls IH]; intros w w' a sb Hrun Ha; simpl in Hrun.
  - injection Hrun as <-. exists sb.
    split; [exact Ha |]. split; [apply same_identity_refl | tauto].
  - destruct (step l w) as [w1 |] eqn:Hstep; [| discriminate]. simpl in Hrun.
    destruct (step_same_identity _ _ _ a sb Hstep Ha) as (sb1 & Hsb1 & Hid1).
    destruct (shouldDeallocate_step _ _ _ a sb (step_step_rel _ _ _ Hstep) Ha)
      as (sb1' & Hsb1' & Hmono & _).
    assert (sb1' = sb1) by congruence. subst sb1'.
    destruct (IH w1 w' a sb1 Hrun Hsb1) as (sb' & Hsb' & Hid & Hflag).
    exists sb'. split; [exact Hsb' |].
    split; [eapply same_identity_trans; eassumption | tauto].
Qed.

(** A pointer that is not null is not replaced: a step leaves the pointer of
    a thread that has a buffer as it is, whichever thread takes the step,
    but for the destructor of the sentinel of that very thread, which makes
    it null. *)
Theorem thread_keeps_buffer (w w' : World) (l : Label) (t : nat)
    (th : Thread) (a : nat) :
  reachable w ->
  step l w = Some w' ->
  threads w !! t = Some th ->
  stagingBuffer th = Some a ->
  exists th',
    threads w' !! t = Some th'
    /\ (stagingBuffer th' = Some a
        \/ (l = L_exit t /\ stagingBuffer th' = None /\ pc th' = Terminated)).
Proof.
  intros Hreach Hstep Ht Ha.
  destruct (reachable_registry_inv w Hreach) as (_ & _ & Hreg & _).
  assert (Hlt : (t < length (threads w))%nat)
    by (eapply lookup_lt_Some; eassumption).
  assert (Hsame : exists th', Some th = Some th'
             /\ (stagingBuffer th' = Some a
                 \/ (l = L_exit t /\ stagingBuffer th' = None
                     /\ pc th' = Terminated)))
    by (exists th; split; [reflexivity | left; exact Ha]).
  apply step_step_rel in Hstep.
  destruct Hstep as [w | t0 addr w a0 Ht0 | t0 addr w p c p' c' n' Ht0 Hmove
                    | t0 addr w p bufferId Ht0 | l a0 sb sb' w Hl Ha0 Hid Hflag
                    | t0 w Ht0 | t0 w a0 Ht0]; simpl;
    try (rewrite Ht; exact Hsame).
  - rewrite lookup_app_l by exact Hlt. rewrite Ht. exact Hsame.
  - destruct (decide (t = t0)) as [-> | Hne].
    + rewrite list_lookup_insert_eq by exact Hlt.
      assert (th = mkThread p c) by congruence. subst th. simpl in Ha.
      eexists. split; [reflexivity |]. left. simpl.
      destruct Hmove; congruence.
    + rewrite list_lookup_insert_ne by congruence. rewrite Ht. exact Hsame.
  - destruct (decide (t = t0)) as [-> | Hne].
    + assert (th = mkThread p (Ensure_new bufferId)) by congruence. subst th.
      pose proof (Hreg t0 _ Ht) as Hnone. unfold registered in Hnone.
      simpl in Hnone, Ha. congruence.
    + rewrite list_lookup_insert_ne by congruence. rewrite Ht. exact Hsame.
  - destruct (decide (t = t0)) as [-> | Hne].
    + assert (th = mkThread None Running) by congruence. subst th.
      discriminate Ha.
    + rewrite list_lookup_insert_ne by congruence. rewrite Ht. exact Hsame.
  - destruct (decide (t = t0)) as [-> | Hne].
    + rewrite list_lookup_insert_eq by exact Hlt.
      eexists. split; [reflexivity |]. right. repeat split.
    + rewrite list_lookup_insert_ne by congruence. rewrite Ht. exact Hsame.
Qed.

End ThreadsAndRegistry.

(** ** The decoder tool *)

Lemma string_app_assoc (a b c : string) : (a +:+ b) +:+ c = a +:+ (b +:+ c).
Proof.
  induction a as [| x a IH]; [reflexivity |].
  rewrite !app_String, IH. reflexivity.
Qed.

Lemma is_substring_trans (a b c : string) :
  is_substring a b -> is_substring b c -> is_substring a c.
Proof.
  intros (p1 & q1 & ->) (p2 & q2 & ->).
  exists (p2 +:+ p1), (q1 +:+ q2).
  rewrite !string_app_assoc. reflexivity.
Qed.

Lemma find_from_empty (haystack : string) :
  find_from EmptyString haystack = Some haystack.
Proof. destruct haystack; reflexivity. Qed.

Lemma matching_empty (logId2Metadata : nat -> LogMetadata)
    (searchString : string) (ids : list nat) :
  c_str searchString = EmptyString ->
  matching logId2Metadata searchString ids = ids.
Proof.
  intros Hs. induction ids as [| i ids IH]; [reflexivity |].
  simpl. unfold strstr. rewrite Hs, find_from_empty, IH. reflexivity.
Qed.

(** A search string that is empty, or starts with NUL, selects every id: the
    function prints the header and one row for each id below [numLogIds]. *)
Theorem search_empty_lists_all
    (numLogIds : nat) (logId2Metadata : nat -> LogMetadata)
    (searchString : string) :
  c_str searchString = EmptyString ->
  printLogMetadataContainingSubstring numLogIds logId2Metadata searchString
  = header_row :: map (metadata_row logId2Metadata) (seq 0 numLogIds).
Proof.
  intros Hs. unfold printLogMetadataContainingSubstring.
  rewrite matching_empty by exact Hs. reflexivity.
Qed.

(** A search for a part of a search string prints every line that the search
    for the whole string prints. *)
Theorem search_refines
    (numLogIds : nat) (logId2Metadata : nat -> LogMetadata)
    (part whole : string) (line : string) :
  is_substring (c_str part) (c_str whole) ->
  In line (printLogMetadataContainingSubstring numLogIds logId2Metadata whole) ->
  In line (printLogMetadataContainingSubstring numLogIds logId2Metadata part).
Proof.
  intros Hpart [Hheader | Hrow]; [left; exact Hheader |].
  right. apply in_map_iff in Hrow as (i & <- & Hi).
  apply in_map_iff. exists i. split; [reflexivity |].
  apply list_elem_of_In. apply list_elem_of_In in Hi.
  apply elem_of_matching in Hi as [Hi Hsub].
  apply elem_of_matching. split; [exact Hi |].
  eapply is_substring_trans; eassumption.
Qed.

Lemma stoi_range (str : string) (v : Z) :
  stoi str = stoi_value v -> INT_MIN <= v <= INT_MAX.
Proof.
  unfold stoi.
  destruct (skip_space str) as [| c r].
  - simpl. discriminate.
  - set (signed := match String c r with
                   | String "-" r0 => (true, r0)
                   | String "+" r0 => (false, r0)
                   | _ => (false, String c r)
                   end).
    destruct signed as [negative s2].
    destruct (read_digits s2 None) as [d |]; [| discriminate].
    set (x := if negative then - d else d).
    destruct ((INT_MIN <=? x) && (x <=? INT_MAX)) eqn:Hrange; [| discriminate].
    intros [= <-]. apply andb_true_iff in Hrange as [Hlo Hhi].
    apply Z.leb_le in Hlo, Hhi. split; assumption.
Qed.

Section DecoderTool.
Context {File : Type} {D : Decoder File}.

(** The count is read before the file is opened: when [main] ends with a
    status other than 0, what it prints and its status do not depend on the
    decoder, that is on which files exist and on what they hold. *)
Theorem main_refuses_before_open
    (File' : Type) (D' : Decoder File') (argv : list string) :
  (main (H := D) argv).2 <> 0 ->
  main (H := D') argv = main (H := D) argv.
Proof.
  destruct argv as [| argv0 [| argv1 rest]]; try (intros _; reflexivity).
  unfold main. destruct (msgsToPrint_of rest) as [o | n]; [reflexivity |].
  destruct (Decoder_open (Decoder := D) (c_str argv1)); simpl; congruence.
Qed.

(** The status of [main] by what [std::stoi] makes of [argv[2]]: 1 with fewer
    than two arguments; 0 with two; with more, [-1] when [std::stoi] throws
    [invalid_argument] or [out_of_range] or gives a negative value, and 0
    when it gives a value that is not negative.  Whether the file can be
    opened plays no part. *)
Theorem main_exit_status (argv : list string) :
  (main argv).2 =
  match argv with
  | [] | [_] => 1
  | [_; _] => 0
  | _ :: _ :: argv2 :: _ =>
      match stoi argv2 with
      | stoi_value v => if v <? 0 then -1 else 0
      | invalid_argument | out_of_range => -1
      end
  end.
Proof.
  destruct argv as [| argv0 [| argv1 [| argv2 more]]]; try reflexivity.
  - unfold main, msgsToPrint_of.
    destruct (Decoder_open (c_str argv1)); reflexivity.
  - unfold main, msgsToPrint_of.
    destruct (stoi argv2) as [v | |]; try reflexivity.
    destruct (v <? 0); [reflexivity |].
    destruct (Decoder_open (c_str argv1)); reflexivity.
Qed.

(** With a log file given, [main] uses neither [argv[0]] nor the arguments
    after the count. *)
Theorem main_ignores_other_arguments
    (argv0 argv0' argv1 argv2 : string) (more : list string) :
  main (argv0 :: argv1 :: argv2 :: more) = main [argv0'; argv1; argv2]
  /\ main [argv0; argv1] = main [argv0'; argv1].
Proof. split; reflexivity. Qed.

(** When [main] returns 0 for a file that can be opened, it has written what
    [decompressUnordered] writes for that file and a count that is [-1] or
    lies between 1 and [INT_MAX]; the count is [-1] exactly when no count,
    or a count that [std::stoi] reads as 0, was given. *)
Theorem main_decodes_with
    (argv0 argv1 : string) (rest : list string) (f : File) :
  Decoder_open (c_str argv1) = Some f ->
  (main (argv0 :: argv1 :: rest)).2 = 0 ->
  exists n,
    main (argv0 :: argv1 :: rest) = (decompressUnordered f n, 0)
    /\ (n = -1 \/ 1 <= n <= INT_MAX)
    /\ (n = -1 <-> rest = []
                   \/ exists argv2 more,
                        rest = argv2 :: more /\ stoi argv2 = stoi_value 0).
Proof.
  intros Hopen. unfold main.
  destruct (msgsToPrint_of rest) as [o | n] eqn:Hcount.
  - apply msgsToPrint_of_exit in Hcount. intros Hzero. congruence.
  - rewrite Hopen. intros _. exists n. split; [reflexivity |].
    unfold msgsToPrint_of in Hcount.
    destruct rest as [| argv2 more].
    + injection Hcount as <-. split; [left; reflexivity |].
      split; [intros _; left; reflexivity | reflexivity].
    + destruct (stoi argv2) as [v | |] eqn:Hstoi; try discriminate.
      pose proof (stoi_range _ _ Hstoi) as Hv.
      destruct (Z.ltb_spec v 0); [discriminate |].
      destruct (Z.eqb_spec v 0) as [-> | Hnz]; injection Hcount as <-.
      * split; [left; reflexivity |].
        split; [| reflexivity].
        intros _. right. exists argv2, more. split; [reflexivity | exact Hstoi].
      * split; [right; lia |]. split; [lia |].
        intros [Hnil | (a2 & m & [= <- <-] & Hzero)]; [discriminate |].
        congruence.
Qed.

End DecoderTool.

(** * Concrete runs *)

#[local] Existing Instance reference_config.

(** A commit of 64 bytes to a fresh buffer. *)
Lemma finishReservation_commit_witness :
  is_uint64 64
  /\ is_uint64 (minFreeSpace fresh_buffer)
  /\ 64 < minFreeSpace fresh_buffer
  /\ producerPos fresh_buffer + 64 < storage fresh_buffer + STAGING_BUFFER_SIZE
  /\ exists sb',
      finishReservation 64 fresh_buffer [] =
        inr (tt, sb',
             [] ++ [Esfence;
                    Estore FminFreeSpace (minFreeSpace fresh_buffer - 64);
                    Estore FproducerPos (producerPos fresh_buffer + 64)])
      /\ producerPos sb' = producerPos fresh_buffer + 64
      /\ minFreeSpace sb' = minFreeSpace fresh_buffer - 64
      /\ consumerPos sb' = consumerPos fresh_buffer
      /\ endOfRecordedSpace sb' = endOfRecordedSpace fresh_buffer
      /\ shouldDeallocate sb' = shouldDeallocate fresh_buffer
      /\ id sb' = id fresh_buffer
      /\ cyclesProducerBlocked sb' = cyclesProducerBlocked fresh_buffer
      /\ storage sb' = storage fresh_buffer.
Proof.
  assert (H1 : is_uint64 64) by (unfold is_uint64; lia).
  assert (H2 : is_uint64 (minFreeSpace fresh_buffer))
    by (unfold is_uint64; simpl; lia).
  assert (H3 : 64 < minFreeSpace fresh_buffer) by (simpl; lia).
  assert (H4 : producerPos fresh_buffer + 64
               < storage fresh_buffer + STAGING_BUFFER_SIZE) by (simpl; lia).
  repeat (split; [assumption |]).
  exact (finishReservation_commit fresh_buffer 64 [] H1 H2 H3 H4).
Defined.

(** The assertions at a commit of 64 bytes, and of the whole capacity, to a
    fresh buffer. *)
Lemma finishReservation_assertions_witness :
  0 <= 64
  /\ storage fresh_buffer <= producerPos fresh_buffer
  /\ 64 < minFreeSpace fresh_buffer
  /\ producerPos fresh_buffer + 64 < storage fresh_buffer + STAGING_BUFFER_SIZE
  /\ (exists sb' tr',
        finishReservation 64 fresh_buffer [] = inr (tt, sb', tr')
        /\ storage sb' <= producerPos sb' < storage sb' + STAGING_BUFFER_SIZE)
  /\ finishReservation (minFreeSpace fresh_buffer) fresh_buffer []
     = inl Assert_nbytes_lt_minFreeSpace.
Proof.
  assert (H1 : 0 <= 64) by lia.
  assert (H2 : storage fresh_buffer <= producerPos fresh_buffer)
    by (simpl; lia).
  assert (H3 : 64 < minFreeSpace fresh_buffer) by (simpl; lia).
  assert (H4 : producerPos fresh_buffer + 64
               < storage fresh_buffer + STAGING_BUFFER_SIZE) by (simpl; lia).
  repeat (split; [assumption |]).
  destruct (finishReservation_assertions fresh_buffer 64 [] H1 H2 H3 H4)
    as (Hok & _ & Hfail).
  split; assumption.
Defined.


(** C8, at the search string [a NUL b] and a table whose only format string
    is [a]: the format string does not contain the search string, and its
    row is printed all the same, where the specification and the comment of
    the function have rows only for the format strings that contain the
    search string. *)
Lemma printLogMetadataContainingSubstring_NUL :
  printLogMetadataContainingSubstring 1 one_entry a_NUL_b
  = [header_row; metadata_row one_entry 0]
  /\ ~ is_substring a_NUL_b (fmtString (one_entry 0%nat)).
Proof.
  split; [reflexivity |].
  intros (before & after & Heq).
  unfold a_NUL_b, one_entry, fmtString in Heq.
  destruct before as [| c [| d before]];
    rewrite ?app_String, ?app_EmptyString in Heq; discriminate.
Qed.

(** The ids of two buffers allocated at the same time. *)
Lemma buffer_ids_fresh_below_wrap_witness :
  reachable interleaved_world
  /\ Z.of_nat (length (issued interleaved_world)) < 2 ^ 32
  /\ nextBufferId (nanoLogSingleton interleaved_world) = 3
  /\ issued interleaved_world ≡ₚ [1; 2]
  /\ NoDup (id <$> heap interleaved_world)
  /\ id <$> heap interleaved_world = [2; 1]
  /\ storage <$> heap interleaved_world = [4194304; 8388608].
Proof.
  assert (Hreach : reachable interleaved_world)
    by (exists interleaved; reflexivity).
  assert (Hbound : Z.of_nat (length (issued interleaved_world)) < 2 ^ 32)
    by (simpl; lia).
  split; [exact Hreach |]. split; [exact Hbound |].
  destruct (buffer_ids_fresh_below_wrap interleaved_world Hreach)
    as (_ & Hnext & _ & Hbelow).
  destruct (Hbelow Hbound) as (Hperm & _ & Hnodup & _).
  split; [exact Hnext |].
  split; [exact Hperm |]. split; [exact Hnodup |]. split; reflexivity.
Defined.

(** C6, at [2^32 + 1] threads that allocate a buffer one after the other:
    the buffer of thread [2^32] gets the id 1, which the buffer of thread 0
    has, where the specification and the comments of the header on
    [nextBufferId] and on [id] have the ids unique for the execution. *)
Lemma buffer_ids_repeat_after_wrap :
  exists w sb sb',
    run (churn (S (Z.to_nat (2 ^ 32)))) init = Some w
    /\ heap w !! 0%nat = Some sb
    /\ heap w !! Z.to_nat (2 ^ 32) = Some sb'
    /\ 0%nat <> Z.to_nat (2 ^ 32)
    /\ id sb = 1
    /\ id sb' = 1.
Proof.
  apply churn_wraps. apply Z2Nat.id. apply Z.pow_nonneg. lia.
Qed.

(** The life of one buffer. *)
Lemma shouldDeallocate_set_once_witness :
  run one_thread init = Some one_thread_world
  /\ NoDup (marks one_thread init)
  /\ marks one_thread init = [0%nat]
  /\ (shouldDeallocate <$> heap one_thread_world) = [true]
  /\ checkCanDelete <$> heap one_thread_world = [true].
Proof.
  assert (Hrun : run one_thread init = Some one_thread_world) by reflexivity.
  split; [exact Hrun |].
  destruct (shouldDeallocate_set_once one_thread one_thread_world Hrun)
    as (Hnodup & _).
  split; [exact Hnodup |]. repeat split; reflexivity.
Defined.

(** ** Further runs *)


(** The compression thread consumes the 64 bytes that are committed. *)
Lemma consume_advances_witness :
  exists sb',
    final (consume 64 committed_buffer []) = Some sb'
    /\ consumerPos committed_buffer = 4096
    /\ consumerPos sb' = 4160
    /\ consumerPos sb' = producerPos sb'.
Proof.
  destruct (consume_advances committed_buffer 64 [])
    as (sb' & Hrun & Hpos & _ & _ & Hcaught & _);
    [simpl; lia | simpl; lia | simpl; lia |].
  exists sb'. rewrite Hrun. split; [reflexivity |]. split; [reflexivity |].
  split; [rewrite Hpos; reflexivity |].
  apply Hcaught. reflexivity.
Defined.

(** Three commits to a fresh buffer; a commit of the whole capacity. *)
Lemma commits_fresh_witness :
  (producerPos <$> final (commits [64; 0; 100] (StagingBuffer_new 4096 1) []))
  = Some 4260
  /\ final (commits [1048576] (StagingBuffer_new 4096 1) []) = None.
Proof.
  assert (Hsize : 0 < STAGING_BUFFER_SIZE < 2 ^ 64) by (simpl; lia).
  split.
  - assert (Hns : Forall (fun n => 0 <= n) [64; 0; 100])
      by (repeat constructor; lia).
    destruct (commits_fresh 4096 1 [64; 0; 100] [] Hsize Hns) as [[_ Hok] Hsb].
    destruct (Hok ltac:(simpl; lia)) as [sb' Hsb'].
    destruct (Hsb sb' Hsb') as (Hp & _). rewrite Hsb'. simpl. rewrite Hp.
    reflexivity.
  - assert (Hns : Forall (fun n => 0 <= n) [1048576])
      by (repeat constructor; lia).
    destruct (commits_fresh 4096 1 [1048576] [] Hsize Hns) as [[Hok _] _].
    destruct (final (commits [1048576] (StagingBuffer_new 4096 1) []))
      as [sb' |]; [| reflexivity].
    exfalso. assert (Hlt : total [1048576] < STAGING_BUFFER_SIZE)
      by (apply Hok; eexists; reflexivity).
    simpl in Hlt. lia.
Defined.

(** A reservation of 64 bytes in a fresh buffer. *)
Lemma reserve_then_commit_witness :
  reserveProducerSpace fresh_buffer 64 = Return 4096
  /\ exists sb' tr',
      finishReservation 64 fresh_buffer [] = inr (tt, sb', tr')
      /\ producerPos sb' = 4096 + 64
      /\ producerPos sb' + minFreeSpace sb' <= storage sb' + STAGING_BUFFER_SIZE
      /\ forall nbytes' p',
           reserveProducerSpace sb' nbytes' = Return p' -> p' = 4096 + 64.
Proof.
  split; [reflexivity |].
  apply (reserve_then_commit fresh_buffer 64 4096 []);
    [lia | unfold is_uint64; simpl; lia | simpl; lia | simpl; lia | reflexivity].
Defined.

(** The buffer of a running thread. *)
Lemma live_buffer_not_deletable_witness :
  reachable committed_world
  /\ exists sb, heap committed_world !! 0%nat = Some sb
                /\ shouldDeallocate sb = false
                /\ checkCanDelete sb = false.
Proof.
  assert (Hreach : reachable committed_world) by (exists committed; reflexivity).
  split; [exact Hreach |].
  apply (live_buffer_not_deletable committed_world 0
           (mkThread (Some 0%nat) Running) 0 Hreach eq_refl);
    [discriminate | reflexivity].
Defined.

(** A thread ends while 64 committed bytes are not consumed. *)
Lemma exit_deletable_iff_drained_witness :
  reachable committed_world
  /\ exists w' sb sb',
      step (L_exit 0) committed_world = Some w'
      /\ heap committed_world !! 0%nat = Some sb
      /\ heap w' !! 0%nat = Some sb'
      /\ checkCanDelete sb = false
      /\ (checkCanDelete sb' = true <-> consumerPos sb = producerPos sb).
Proof.
  assert (Hreach : reachable committed_world) by (exists committed; reflexivity).
  split; [exact Hreach |].
  destruct (exit_deletable_iff_drained committed_world 0 0 Hreach eq_refl)
    as (w' & sb & sb' & Hstep & Hsb & Hsb' & Hno & Hiff & _).
  exists w', sb, sb'. repeat (split; [assumption |]). exact Hiff.
Defined.

(** One owner of the mutex while another thread waits. *)
Lemma bufferMutex_exclusion_witness :
  reachable waiting_world
  /\ bufferMutex (nanoLogSingleton waiting_world) = Some 0%nat
  /\ forall t1 t2 th1 th2,
       threads waiting_world !! t1 = Some th1 ->
       threads waiting_world !! t2 = Some th2 ->
       holds_mutex (pc th1) = true -> holds_mutex (pc th2) = true ->
       t1 = t2.
Proof.
  assert (Hreach : reachable waiting_world) by (exists waiting; reflexivity).
  split; [exact Hreach |]. split; [reflexivity |].
  exact (proj1 (bufferMutex_exclusion waiting_world Hreach)).
Defined.

(** Thread 1 waits for the mutex: the owner can go on. *)
Lemma ensure_no_deadlock_witness :
  reachable waiting_world
  /\ step (L_ensure 1 0) waiting_world = None
  /\ exists t',
      (t' = 1%nat \/ bufferMutex (nanoLogSingleton waiting_world) = Some t')
      /\ forall addr, is_Some (step (L_ensure t' addr) waiting_world).
Proof.
  assert (Hreach : reachable waiting_world) by (exists waiting; reflexivity).
  split; [exact Hreach |]. split; [reflexivity |].
  apply (ensure_no_deadlock waiting_world 1 (mkThread None Ensure_lock) Hreach);
    [reflexivity | discriminate | discriminate].
Defined.

(** The first allocation of the process. *)
Lemma ensureStagingBufferAllocated_alone_witness :
  exists w',
    run (ensure_alone 0 4096) spawned_world = Some w'
    /\ heap w' = [StagingBuffer_new 4096 1]
    /\ threadBuffers (nanoLogSingleton w') = [Some 0%nat]
    /\ nextBufferId (nanoLogSingleton w') = 2.
Proof.
  destruct (ensureStagingBufferAllocated_alone spawned_world 0 4096
              eq_refl eq_refl)
    as (w' & Hrun & Hheap & Htb & Hnext & _).
  exists w'. split; [exact Hrun |]. split; [exact Hheap |].
  split; [exact Htb | exact Hnext].
Defined.

(** The first reservation of the process. *)
Lemma first_reserveAlloc_witness :
  exists w',
    __internal_reserveAlloc 0 4096 64 spawned_world = Some (Return 4096, w')
    /\ forall addr',
         __internal_reserveAlloc 0 addr' 64 w' = Some (Return 4096, w').
Proof.
  destruct (first_reserveAlloc spawned_world 0 4096 64 eq_refl eq_refl)
    as (w' & Hfirst & _ & _ & _ & Hagain); [simpl; lia |].
  exists w'. split; [exact Hfirst | exact Hagain].
Defined.

(** The registry while the second of two threads registers its buffer: the
    buffer of thread 1 is in it, the buffer of thread 0 is the one that is
    about to be pushed. *)
Lemma registry_consistent_witness :
  reachable registering_world
  /\ threadBuffers (nanoLogSingleton registering_world) = [Some 0%nat]
  /\ threads registering_world
     = [mkThread (Some 1%nat) Ensure_push; mkThread (Some 0%nat) Running]
  /\ NoDup (threadBuffers (nanoLogSingleton registering_world))
  /\ (exists a sb, Some 0%nat = Some a /\ heap registering_world !! a = Some sb)
  /\ Some 0%nat ∈ threadBuffers (nanoLogSingleton registering_world)
  /\ (Some 1%nat ∈ threadBuffers (nanoLogSingleton registering_world)
      \/ exists t th,
           threads registering_world !! t = Some th
           /\ stagingBuffer th = Some 1%nat
           /\ (pc th = Ensure_relock \/ pc th = Ensure_push)).
Proof.
  assert (Hreach : reachable registering_world)
    by (exists registering; reflexivity).
  destruct (registry_consistent registering_world Hreach)
    as (Hnodup & Hlive & Hrunning & Hall).
  split; [exact Hreach |]. split; [reflexivity |]. split; [reflexivity |].
  split; [exact Hnodup |]. split; [| split].
  - apply Hlive. left.
  - exact (Hrunning 1%nat (mkThread (Some 0%nat) Running) 0%nat
             eq_refl eq_refl eq_refl).
  - exact (Hall 1%nat (default fresh_buffer (heap registering_world !! 1%nat))
             eq_refl).
Defined.

(** The buffer of a thread, from its first commit to the end of the thread. *)
Lemma buffers_keep_identity_witness :
  run rest_of_life committed_world = Some ended_world
  /\ exists sb sb',
      heap committed_world !! 0%nat = Some sb
      /\ heap ended_world !! 0%nat = Some sb'
      /\ same_identity sb sb'
      /\ checkCanDelete sb' = true.
Proof.
  assert (Hrun : run rest_of_life committed_world = Some ended_world)
    by reflexivity.
  split; [exact Hrun |].
  assert (Hsb0 : heap committed_world !! 0%nat = Some committed_buffer)
    by reflexivity.
  destruct (buffers_keep_identity rest_of_life committed_world ended_world 0
              committed_buffer Hrun Hsb0)
    as (sb' & Hsb' & Hid & _).
  exists committed_buffer, sb'. split; [exact Hsb0 |]. split; [exact Hsb' |].
  split; [exact Hid |].
  assert (Hsb : sb' = default fresh_buffer (heap ended_world !! 0%nat))
    by (rewrite Hsb'; reflexivity).
  rewrite Hsb. reflexivity.
Defined.

(** The empty search string over two call sites. *)
Lemma search_empty_lists_all_witness :
  printLogMetadataContainingSubstring 2 two_entries EmptyString
  = [header_row; metadata_row two_entries 0; metadata_row two_entries 1].
Proof. apply (search_empty_lists_all 2 two_entries EmptyString). reflexivity. Defined.

(** The searches for [ed] and for [Closed]. *)
Lemma search_refines_witness :
  is_substring (c_str "ed") (c_str "Closed")
  /\ In (metadata_row two_entries 1)
        (printLogMetadataContainingSubstring 2 two_entries "ed").
Proof.
  assert (Hpart : is_substring (c_str "ed") (c_str "Closed"))
    by (exists "Clos", EmptyString; reflexivity).
  split; [exact Hpart |].
  apply (search_refines 2 two_entries "ed" "Closed" _ Hpart).
  right. left. reflexivity.
Defined.

(** A count that is not a number, with and without the log file. *)
Lemma main_refuses_before_open_witness :
  main (H := spec_Decoder (fun _ => None)) ["decompressor"; "app.log"; "many"]
  = main (H := three_records) ["decompressor"; "app.log"; "many"]
  /\ (main (H := three_records) ["decompressor"; "app.log"; "many"]).2 = -1.
Proof.
  split; [| reflexivity].
  apply (main_refuses_before_open (D := three_records)).
  simpl. discriminate.
Defined.

(** A count of 2 for a file of three records. *)
Lemma main_decodes_with_witness :
  exists n,
    main (H := three_records) ["decompressor"; "app.log"; "2"]
    = (decompressUnordered (Decoder := three_records)
         ["first"; "second"; "third"] n, 0)
    /\ (n = -1 \/ 1 <= n <= INT_MAX).
Proof.
  destruct (main_decodes_with (D := three_records) "decompressor" "app.log"
              ["2"] ["first"; "second"; "third"] eq_refl eq_refl)
    as (n & Hmain & Hrange & _).
  exists n. split; [exact Hmain | exact Hrange].
Defined.

(** The thread with the committed bytes while the compression thread
    consumes, and when it ends. *)
Lemma thread_keeps_buffer_witness :
  reachable committed_world
  /\ (exists th',
        threads (default init (step (L_consume 0 64) committed_world)) !! 0%nat
        = Some th' /\ stagingBuffer th' = Some 0%nat)
  /\ threads ended_world !! 0%nat = Some (mkThread None Terminated).
Proof.
  assert (Hreach : reachable committed_world) by (exists committed; reflexivity).
  split; [exact Hreach |]. split; [| reflexivity].
  destruct (thread_keeps_buffer committed_world
              (default init (step (L_consume 0 64) committed_world))
              (L_consume 0 64) 0 (mkThread (Some 0%nat) Running) 0
              Hreach eq_refl eq_refl eq_refl)
    as (th' & Hth' & [Hkeep | (Hexit & _)]); [| discriminate Hexit].
  exists th'. split; [exact Hth' | exact Hkeep].
Defined.
